(** * lg: directory listing with git status -- verification of the status engine

    Shallow embedding of the git-handling code of [lg.c] (first version,
    [popen] based) and [lg_v2.c] (second version, [fork]/[exec] based):
    the subprocess runner, the porcelain parser, the prefix computation, the
    per-file lookup and the colour / glyph tables.

    Conventions.
    - A C string is a [list ascii] (the bytes before the terminating NUL).
    - [size_t] values are [Z]; where the source subtracts on [size_t] the
      wrap-around modulo [2^64] is written out.
    - A fixed-size [char] array declared in the source is modelled with its
      bound: a store that does not fit yields [Fault].  So is the heap block
      [strdup] returns for the relative prefix, the one block the source
      writes to after the copy; the other blocks are only read and are
      modelled by their string value.  [strdup] is taken to succeed.
    - What the operating system answers ([pipe], [fork], [read], [waitpid],
      [getcwd], [chdir], [realloc]) is an explicit input of the model. *)

From Stdlib Require Import List ZArith Lia Bool Ascii String.
Import ListNotations.
Local Open Scope Z_scope.

(* ================================================================== *)
(** ** C strings and characters *)

Definition cstr := list ascii.

(** String literals of the source. *)
Definition cs (s : string) : cstr := list_ascii_of_string s.

Definition NUL : ascii := "000"%char.
Definition NL : ascii := "010"%char.
Definition TAB : ascii := "009"%char.

Definition strlen (s : cstr) : Z := Z.of_nat (List.length s).

(** [strcmp(a, b) == 0] *)
Fixpoint streq (a b : cstr) : bool :=
  match a, b with
  | [], [] => true
  | x :: a', y :: b' => Ascii.eqb x y && streq a' b'
  | _, _ => false
  end.

(** The string a [char] array holds: the bytes before the first NUL. *)
Fixpoint c_str (buf : list ascii) : cstr :=
  match buf with
  | [] => []
  | c :: r => if Ascii.eqb c NUL then [] else c :: c_str r
  end.

(** [isspace] of <ctype.h> in the C locale: space, \t, \n, \v, \f, \r. *)
Definition isspace (c : ascii) : bool :=
  let n := nat_of_ascii c in
  (Nat.eqb n 32 || (Nat.leb 9 n && Nat.leb n 13))%bool.

(** [tolower] of <ctype.h> in the C locale. *)
Definition tolower (c : ascii) : ascii :=
  let n := nat_of_ascii c in
  if (Nat.leb 65 n && Nat.leb n 90)%bool then ascii_of_nat (n + 32) else c.

(* ================================================================== *)
(** ** Outcomes: a value, or a store past the end of a fixed array *)

Inductive outcome (A : Type) : Type :=
| Ok (a : A)
| Fault.
Arguments Ok {A} a.
Arguments Fault {A}.

Definition bind {A B} (m : outcome A) (k : A -> outcome B) : outcome B :=
  match m with
  | Ok a => k a
  | Fault => Fault
  end.

Notation "x <- m ;; k" := (bind m (fun x => k))
  (at level 61, m at next level, right associativity).

(* ================================================================== *)
(** ** [sscanf] for the directives the sources use

    Formats in the sources:
    - lg_v2.c: ["%*c %2s %*s %*s %*s %*s %*s %*s %s"] and ["? %s"]
    - lg.c:    ["%2s\t%s"]                                              *)

Inductive directive : Type :=
| Dspace                                        (* white space in the format *)
| Dlit (c : ascii)                              (* ordinary character *)
| Dskipc                                        (* %*c *)
| Dstr (width : option nat) (dest : option Z).  (* %s, %Ns, %*s; [dest] is
                                                   the size of the array the
                                                   field is stored into *)

Definition EOF : Z := -1.

Fixpoint skip_space (s : cstr) : cstr :=
  match s with
  | [] => []
  | c :: r => if isspace c then skip_space r else s
  end.

(** A [%s] field: the longest run of non-white-space characters, at most
    [width] of them; returns the field and the unread input. *)
Fixpoint take_field (width : option nat) (s : cstr) : cstr * cstr :=
  match s with
  | [] => ([], [])
  | c :: r =>
      if isspace c then ([], s)
      else match width with
           | Some O => ([], s)
           | Some (S n) => let (f, rest) := take_field (Some n) r in (c :: f, rest)
           | None => let (f, rest) := take_field None r in (c :: f, rest)
           end
  end.

(** Result of a scan: the return value of [sscanf] and the strings stored,
    in argument order. *)
Definition scanned : Type := (Z * list cstr)%type.

(** Return value when the input ends: EOF before the first conversion has
    completed, the number of items assigned afterwards (ISO C; some
    libraries return EOF whenever nothing was assigned yet -- the sources
    only compare the result with 2 or with 1). *)
Definition input_failure (converted : bool) (done : list cstr) : scanned :=
  (if converted then Z.of_nat (List.length done) else EOF, done).

Definition matching_failure (done : list cstr) : scanned :=
  (Z.of_nat (List.length done), done).

Fixpoint sscanf_from (fmt : list directive) (s : cstr)
         (converted : bool) (done : list cstr) : outcome scanned :=
  match fmt with
  | [] => Ok (Z.of_nat (List.length done), done)
  | Dspace :: fmt' => sscanf_from fmt' (skip_space s) converted done
  | Dlit c :: fmt' =>
      match s with
      | [] => Ok (input_failure converted done)
      | x :: r => if Ascii.eqb x c then sscanf_from fmt' r converted done
                  else Ok (matching_failure done)
      end
  | Dskipc :: fmt' =>
      match s with
      | [] => Ok (input_failure converted done)
      | _ :: r => sscanf_from fmt' r true done
      end
  | Dstr width dest :: fmt' =>
      match skip_space s with
      | [] => Ok (input_failure converted done)
      | s1 =>
          let (f, rest) := take_field width s1 in
          match dest with
          | None => sscanf_from fmt' rest true done
          | Some size =>
              (* the field and its NUL need [strlen f + 1] bytes *)
              if size <=? strlen f then Fault
              else sscanf_from fmt' rest true (done ++ [f])
          end
      end
  end.

Definition sscanf (s : cstr) (fmt : list directive) : outcome scanned :=
  sscanf_from fmt s false [].

(** [strtok(s, "\n")] called until it returns NULL yields the maximal
    non-empty runs of characters other than the newline.  [segments] cuts
    at every newline; [strtok_lines] drops the empty pieces, as [strtok]
    skips runs of delimiters. *)
Fixpoint segments (s : cstr) : cstr * list cstr :=
  match s with
  | [] => ([], [])
  | c :: r =>
      let (cur, more) := segments r in
      if Ascii.eqb c NL then ([], cur :: more) else (c :: cur, more)
  end.

Definition nonempty (s : cstr) : bool :=
  match s with [] => false | _ => true end.

Definition strtok_lines (s : cstr) : list cstr :=
  let (cur, more) := segments s in filter nonempty (cur :: more).

(** The escape character, [\033]. *)
Definition ESC : ascii := "027"%char.

(** A [switch] label group: [c] is one of the characters of [set]. *)
Definition is_one_of (set : string) (c : ascii) : bool :=
  existsb (Ascii.eqb c) (cs set).

(** Prefixes and suffixes with [size_t] counts. *)
Fixpoint take_z {A} (n : Z) (l : list A) : list A :=
  match l with
  | [] => []
  | x :: r => if 0 <? n then x :: take_z (n - 1) r else []
  end.

Fixpoint drop_z {A} (n : Z) (l : list A) : list A :=
  match l with
  | [] => []
  | x :: r => if 0 <? n then drop_z (n - 1) r else l
  end.

(** [s[i]] for [i <= strlen s]: the terminator when [i = strlen s]. *)
Definition char_at (s : cstr) (i : nat) : ascii := nth i s NUL.

(** [snprintf(buf, size, fmt, ...)] where the formatted text is [text]: the
    buffer afterwards.  Nothing is written when [size] is 0. *)
Definition snprintf (buf : cstr) (size : Z) (text : cstr) : cstr :=
  if size =? 0 then buf else take_z (size - 1) text.

(** Arithmetic on [size_t]. *)
Definition SIZE_MAX1 : Z := 2 ^ 64.
Definition size_sub (a b : Z) : Z := (a - b) mod SIZE_MAX1.
Definition size_mul (a b : Z) : Z := (a * b) mod SIZE_MAX1.

(** A [char] array of [size] bytes with indeterminate contents [junk]. *)
Fixpoint array_from (junk : Z -> ascii) (n : nat) (i : Z) : list ascii :=
  match n with
  | O => []
  | S n' => junk i :: array_from junk n' (i + 1)
  end.

Definition array_of (junk : Z -> ascii) (size : Z) : list ascii :=
  array_from junk (Z.to_nat size) 0.

(** Storing [data] at offset [off] of an array: a fault when it does not
    fit. *)
Definition store (buf : list ascii) (off : Z) (data : list ascii)
  : outcome (list ascii) :=
  if ((0 <=? off) && (off + strlen data <=? strlen buf))%bool
  then Ok (take_z off buf ++ data ++ drop_z (off + strlen data) buf)
  else Fault.

(** [strdup(s)]: a block of [strlen(s) + 1] bytes holding the string and
    its terminator. *)
Definition strdup (s : cstr) : list ascii := c_str s ++ [NUL].

(** [strcat(dest, src)]: [src] and its terminator are stored from the
    terminator of the string [dest] holds. *)
Definition strcat (dest : list ascii) (src : cstr) : outcome (list ascii) :=
  store dest (strlen (c_str dest)) (c_str src ++ [NUL]).

(* ================================================================== *)
(** ** Child processes *)

Inductive wait_status : Type :=
| Exited (code : Z)
| Signaled (sig : Z).

Definition WIFEXITED (st : wait_status) : bool :=
  match st with Exited _ => true | Signaled _ => false end.

Definition WEXITSTATUS (st : wait_status) : Z :=
  match st with Exited code => code | Signaled _ => 0 end.

(** One call of [read] on the pipe: the bytes the pipe holds at that moment
    (none: end of file), or an error. *)
Inductive read_event : Type :=
| Rdata (avail : list ascii)
| Rerror.

(** What happens when a command is run: whether [pipe] and [fork] succeed,
    what the successive [read] calls find, how the child ends.  A child
    whose [execvp] fails ends with [Exited 1] and no output. *)
Record child : Type := {
  pipe_ok : bool;
  fork_ok : bool;
  reads : list read_event;
  wstatus : wait_status
}.

(** Everything the child wrote, up to the first failing [read]. *)
Fixpoint child_output (evs : list read_event) : list ascii :=
  match evs with
  | [] => []
  | Rdata [] :: _ => []
  | Rdata avail :: evs' => avail ++ child_output evs'
  | Rerror :: _ => []
  end.

(* ================================================================== *)
(** ** lg_v2.c *)

Module LgV2.

Definition INITIAL_CAPACITY : Z := 100.

Record GitStatus : Type := {
  path : cstr;
  status_staged : ascii;
  status_unstaged : ascii
}.

(** [count] is the length of [statuses]; a NULL [rel_prefix] is [None]. *)
Record GitContext : Type := {
  statuses : list GitStatus;
  capacity : Z;
  rel_prefix : option cstr
}.

Definition count (ctx : GitContext) : Z :=
  Z.of_nat (List.length (statuses ctx)).

(** What the operating system answers during one [get_git_status]. *)
Record os : Type := {
  calloc_ok : bool;                 (* git_context_create *)
  cwd_before : option cstr;         (* getcwd(old_dir) *)
  chdir_ok : bool;                  (* chdir(dir_path) *)
  rev_parse : child;                (* git rev-parse --show-toplevel *)
  cwd_after : option cstr;          (* getcwd(cwd) *)
  git_status : child;               (* git status --porcelain=v2 *)
  realloc_ok : Z -> bool;           (* realloc to the given capacity *)
  junk : Z -> ascii                 (* contents of fresh stack arrays *)
}.

Section WithLimits.

(** [PATH_MAX] of <limits.h>, the size of the path arrays: a parameter,
    positive as an array size is. *)
Variable PATH_MAX : positive.
#[local] Abbreviation PMAX := (Z.pos PATH_MAX).

(** *** safe_strncpy

    The return value and the destination afterwards.  (The NULL tests
    cannot fire at the one call: both arguments are checked before.) *)
Definition safe_strncpy (dest : cstr) (src : cstr) (dest_size : Z) : Z * cstr :=
  if dest_size =? 0 then (-1, dest)
  else if dest_size <=? strlen src
       then (-1, take_z (dest_size - 1) src)
       else (0, src).

Definition validate_path (p : option cstr) : bool :=
  match p with
  | None => false
  | Some s => strlen s <? PMAX
  end.

(** [getcwd(buf, size)]: NULL when the directory cannot be resolved or its
    name and terminator do not fit. *)
Definition getcwd (answer : option cstr) (size : Z) : option cstr :=
  match answer with
  | Some s => if strlen s <? size then Some s else None
  | None => None
  end.

(** *** exec_git_command *)

(** The [read] loop: [avail] is cut to the [count] requested.  A count so
    large that [output + total_read + count] lies past the end of the
    address space, whatever the address of [output], makes [read] fail
    before anything is stored (EFAULT): that is the count
    [output_size - total_read - 1] once it has wrapped. *)
Fixpoint read_loop (evs : list read_event) (output : list ascii)
         (output_size total_read : Z) : outcome (Z * list ascii) :=
  let count := size_sub (size_sub output_size total_read) 1 in
  if SIZE_MAX1 <=? 1 + total_read + count then Ok (total_read, output)
  else
    match evs with
    | [] => Ok (total_read, output)
    | Rerror :: _ => Ok (total_read, output)
    | Rdata avail :: evs' =>
        let got := take_z count avail in
        let bytes_read := strlen got in
        if 0 <? bytes_read then
          output' <- store output total_read got ;;
          let total_read' := total_read + bytes_read in
          if size_sub output_size 1 <=? total_read'
          then Ok (total_read', output')
          else read_loop evs' output' output_size total_read'
        else Ok (total_read, output)
    end.

(** Returns the return value and the [output] array afterwards. *)
Definition exec_git_command (c : child) (output : list ascii)
           (output_size : Z) : outcome (Z * list ascii) :=
  if negb (pipe_ok c) then Ok (-1, output)
  else if negb (fork_ok c) then Ok (-1, output)
  else
    r <- read_loop (reads c) output output_size 0 ;;
    output' <- store (snd r) (fst r) [NUL] ;;
    Ok (if (WIFEXITED (wstatus c) && (WEXITSTATUS (wstatus c) =? 0))%bool
        then 0 else -1,
        output').

(** *** get_git_status *)

(** Lines 291-295: drop one trailing newline. *)
Definition strip_newline (s : cstr) : cstr :=
  if ((0 <? strlen s) && Ascii.eqb (char_at s (List.length s - 1)) NL)%bool
  then removelast s else s.

(** Lines 305-311: the relative prefix.  [strdup(cwd + strlen(git_root) + 1)]
    followed by [strcat] of "/" when the copy is not empty; the result is
    the string the block holds afterwards. *)
Definition compute_prefix (git_root cwd : cstr) : outcome (option cstr) :=
  if strlen git_root <? strlen cwd then
    let rel_prefix := strdup (drop_z (strlen git_root + 1) cwd) in
    if 0 <? strlen (c_str rel_prefix) then
      rel_prefix' <- strcat rel_prefix (cs "/") ;;
      Ok (Some (c_str rel_prefix'))
    else Ok (Some (c_str rel_prefix))
  else Ok None.

Definition fmt_tracked : list directive :=
  [Dskipc; Dspace; Dstr (Some 2%nat) (Some 3); Dspace;
   Dstr None None; Dspace; Dstr None None; Dspace; Dstr None None; Dspace;
   Dstr None None; Dspace; Dstr None None; Dspace; Dstr None None; Dspace;
   Dstr None (Some PMAX)].

Definition fmt_untracked : list directive :=
  [Dlit "?"; Dspace; Dstr None (Some PMAX)].

Definition push (ctx : GitContext) (e : GitStatus) : GitContext :=
  {| statuses := statuses ctx ++ [e];
     capacity := capacity ctx;
     rel_prefix := rel_prefix ctx |}.

Definition grow (realloc : Z -> bool) (ctx : GitContext) : GitContext :=
  if capacity ctx <=? count ctx then
    let new_cap := size_mul (capacity ctx) 2 in
    if realloc new_cap
    then {| statuses := statuses ctx; capacity := new_cap;
            rel_prefix := rel_prefix ctx |}
    else ctx
  else ctx.

Definition add_tracked (realloc : Z -> bool) (ctx : GitContext)
           (xy p : cstr) : GitContext :=
  let ctx := grow realloc ctx in
  if count ctx <? capacity ctx
  then push ctx {| path := p; status_staged := char_at xy 0;
                   status_unstaged := char_at xy 1 |}
  else ctx.

Definition add_untracked (ctx : GitContext) (p : cstr) : GitContext :=
  if count ctx <? capacity ctx
  then push ctx {| path := p; status_staged := "?"; status_unstaged := "?" |}
  else ctx.

(** The body of the [while (line != NULL)] loop. *)
Definition parse_line (realloc : Z -> bool) (ctx : GitContext) (line : cstr)
  : outcome GitContext :=
  let c := char_at line 0 in
  if (Ascii.eqb c "1" || Ascii.eqb c "2")%bool then
    r <- sscanf line fmt_tracked ;;
    match r with
    | (n, [xy; p]) => Ok (if n =? 2 then add_tracked realloc ctx xy p else ctx)
    | _ => Ok ctx
    end
  else if Ascii.eqb c "?" then
    r <- sscanf line fmt_untracked ;;
    match r with
    | (n, [p]) => Ok (if n =? 1 then add_untracked ctx p else ctx)
    | _ => Ok ctx
    end
  else Ok ctx.

Fixpoint parse_lines (realloc : Z -> bool) (ctx : GitContext)
         (lines : list cstr) : outcome GitContext :=
  match lines with
  | [] => Ok ctx
  | line :: rest =>
      ctx' <- parse_line realloc ctx line ;;
      parse_lines realloc ctx' rest
  end.

(** Lines 317-357 on the string the status array holds. *)
Definition parse_status (realloc : Z -> bool) (ctx : GitContext)
           (status_output : cstr) : outcome GitContext :=
  parse_lines realloc ctx (strtok_lines status_output).

Definition git_context_create (ok : bool) : option GitContext :=
  if ok
  then Some {| statuses := []; capacity := INITIAL_CAPACITY;
               rel_prefix := None |}
  else None.

Definition with_prefix (ctx : GitContext) (p : option cstr) : GitContext :=
  {| statuses := statuses ctx; capacity := capacity ctx; rel_prefix := p |}.

(** NULL is [None]. *)
Definition get_git_status (w : os) (dir_path : option cstr)
  : outcome (option GitContext) :=
  if negb (validate_path dir_path) then Ok None else
  match git_context_create (calloc_ok w) with
  | None => Ok None
  | Some ctx =>
  match getcwd (cwd_before w) PMAX with
  | None => Ok None
  | Some old_dir =>
  if negb (chdir_ok w) then Ok None else
  r <- exec_git_command (rev_parse w) (array_of (junk w) PMAX) PMAX ;;
  if negb (fst r =? 0) then Ok None else
  let git_root := strip_newline (c_str (snd r)) in
  match getcwd (cwd_after w) PMAX with
  | None => Ok None
  | Some cwd =>
  p <- compute_prefix git_root cwd ;;
  let ctx := with_prefix ctx p in
  r <- exec_git_command (git_status w) (array_of (junk w) 65536) 65536 ;;
  if fst r =? 0 then
    ctx' <- parse_status (realloc_ok w) ctx (c_str (snd r)) ;;
    Ok (Some ctx')
  else Ok (Some ctx)
  end end end.

(** *** get_file_git_status *)

(** What [full_path] holds after the [if]; the array is fresh. *)
Definition full_path_of (ctx : GitContext) (filename : cstr) : cstr :=
  match rel_prefix ctx with
  | Some p =>
      if 0 <? strlen p
      then snprintf [] PMAX (p ++ filename)
      else snd (safe_strncpy [] filename PMAX)
  | None => snd (safe_strncpy [] filename PMAX)
  end.

(** The [for] loop over the entries. *)
Fixpoint scan_statuses (l : list GitStatus) (full_path : cstr) : ascii :=
  match l with
  | [] => " "
  | e :: rest =>
      if streq (path e) full_path then
        if (negb (Ascii.eqb (status_staged e) ".") &&
            negb (Ascii.eqb (status_staged e) " "))%bool
        then status_staged e
        else if (negb (Ascii.eqb (status_unstaged e) ".") &&
                 negb (Ascii.eqb (status_unstaged e) " "))%bool
        then tolower (status_unstaged e)
        else scan_statuses rest full_path
      else scan_statuses rest full_path
  end.

Definition get_file_git_status (ctx : option GitContext)
           (filename : option cstr) : ascii :=
  match ctx, filename with
  | Some ctx, Some filename =>
      scan_statuses (statuses ctx) (full_path_of ctx filename)
  | _, _ => " "
  end.

End WithLimits.

(** *** get_git_color and format_git_status *)

Definition get_git_color (status : ascii) : cstr :=
  if Ascii.eqb status "M" then ESC :: cs "[38;5;214m"
  else if Ascii.eqb status "m" then ESC :: cs "[38;5;178m"
  else if Ascii.eqb status "A" then ESC :: cs "[38;5;34m"
  else if Ascii.eqb status "a" then ESC :: cs "[38;5;28m"
  else if Ascii.eqb status "D" then ESC :: cs "[38;5;167m"
  else if Ascii.eqb status "d" then ESC :: cs "[38;5;131m"
  else if Ascii.eqb status "R" then ESC :: cs "[38;5;141m"
  else if Ascii.eqb status "r" then ESC :: cs "[38;5;97m"
  else if Ascii.eqb status "C" then ESC :: cs "[38;5;73m"
  else if Ascii.eqb status "c" then ESC :: cs "[38;5;66m"
  else if Ascii.eqb status "?" then ESC :: cs "[38;5;245m"
  else if Ascii.eqb status "!" then ESC :: cs "[38;5;240m"
  else [].

(** The solid and the hollow circle, U+25CF and U+25CB, as the UTF-8 bytes
    of the source file: E2 97 8F and E2 97 8B. *)
Definition solid_circle : cstr := ["226"; "151"; "143"]%char.
Definition hollow_circle : cstr := ["226"; "151"; "139"]%char.

(** The text each [case] prints. *)
Definition glyph_text (status : ascii) : cstr :=
  if is_one_of "MADRC" status then " "%char :: solid_circle
  else if is_one_of "madrc" status then " "%char :: hollow_circle
  else if Ascii.eqb status "?" then cs " ?"
  else if Ascii.eqb status "!" then cs " !"
  else cs "  ".

(** [buf] afterwards. *)
Definition format_git_status (status : ascii) (buf : cstr) (buf_size : Z)
  : cstr :=
  snprintf buf buf_size (glyph_text status).

End LgV2.

(* ================================================================== *)
(** ** lg.c *)

Module Lg.

Definition MAX_PATH : Z := 4096.
Definition MAX_FILES : Z := 10000.

Record GitStatus : Type := {
  path : cstr;
  status : ascii
}.

(** The global array [git_statuses] up to [git_status_count]. *)
Definition table : Type := list GitStatus.

Definition git_status_count (t : table) : Z := Z.of_nat (List.length t).

(** [fgets(line, size, fp)] called until it returns NULL: each piece ends
    after a newline or when [size - 1] characters are read.  [cur] is the
    piece being read, latest character first; [room] is what it can still
    take. *)
Fixpoint fgets_from (size : Z) (cur : list ascii) (room : Z)
         (s : list ascii) : list (list ascii) :=
  match s with
  | [] => match cur with [] => [] | _ => [rev cur] end
  | c :: r =>
      if (Ascii.eqb c NL || (room <=? 1))%bool
      then rev (c :: cur) :: fgets_from size [] (size - 1) r
      else fgets_from size (c :: cur) (room - 1) r
  end.

(** The lines [fgets] delivers from a stream, as the strings [line]
    holds. *)
Definition fgets_lines (size : Z) (stream : list ascii) : list cstr :=
  map c_str (fgets_from size [] (size - 1) stream).

Definition fmt_name_status : list directive :=
  [Dstr (Some 2%nat) (Some 3); Dspace; Dstr None (Some MAX_PATH)].

(** [strcmp] against the paths already in the table. *)
Definition found (t : table) (p : cstr) : bool :=
  existsb (fun e => streq (path e) p) t.

Definition add (t : table) (p : cstr) (st : ascii) : table :=
  t ++ [{| path := p; status := st |}].

(** [status[0] + 32] stored into a [char]. *)
Definition plus32 (c : ascii) : ascii :=
  ascii_of_nat ((nat_of_ascii c + 32) mod 256).

(** One line of [git diff --name-status --cached]. *)
Definition staged_line (t : table) (line : cstr) : outcome table :=
  r <- sscanf line fmt_name_status ;;
  match r with
  | (n, [st; p]) =>
      Ok (if ((n =? 2) && (git_status_count t <? MAX_FILES))%bool
          then add t p (char_at st 0) else t)
  | _ => Ok t
  end.

(** One line of [git diff --name-status]. *)
Definition unstaged_line (t : table) (line : cstr) : outcome table :=
  r <- sscanf line fmt_name_status ;;
  match r with
  | (n, [st; p]) =>
      Ok (if ((n =? 2) && negb (found t p) &&
              (git_status_count t <? MAX_FILES))%bool
          then add t p (plus32 (char_at st 0)) else t)
  | _ => Ok t
  end.

(** [line[strcspn(line, "\n")] = 0] *)
Fixpoint chomp (line : cstr) : cstr :=
  match line with
  | [] => []
  | c :: r => if Ascii.eqb c NL then [] else c :: chomp r
  end.

(** One line of [git ls-files --others --exclude-standard]; [strcpy] into
    the [MAX_PATH] bytes of the entry. *)
Definition untracked_line (t : table) (line : cstr) : outcome table :=
  let line := chomp line in
  if 0 <? strlen line then
    if (negb (found t line) && (git_status_count t <? MAX_FILES))%bool
    then if MAX_PATH <=? strlen line then Fault else Ok (add t line "?")
    else Ok t
  else Ok t.

Fixpoint each_line (step : table -> cstr -> outcome table) (t : table)
         (lines : list cstr) : outcome table :=
  match lines with
  | [] => Ok t
  | line :: rest => t' <- step t line ;; each_line step t' rest
  end.

(** A [popen]ed command: NULL, or the stream the command writes. *)
Definition run (step : table -> cstr -> outcome table) (t : table)
           (fp : option (list ascii)) : outcome table :=
  match fp with
  | None => Ok t
  | Some stream => each_line step t (fgets_lines (MAX_PATH + 10) stream)
  end.

(** The four commands of [get_git_status], in order; the table afterwards. *)
Record streams : Type := {
  git_dir : option (list ascii);     (* git rev-parse --git-dir *)
  staged : option (list ascii);      (* git diff --name-status --cached *)
  unstaged : option (list ascii);    (* git diff --name-status *)
  untracked : option (list ascii)    (* git ls-files --others ... *)
}.

Definition get_git_status (w : streams) (t : table) : outcome table :=
  match git_dir w with
  | None => Ok t
  | Some out =>
      match fgets_lines (MAX_PATH + 10) out with
      | [] => Ok t
      | _ =>
          t1 <- run staged_line t (staged w) ;;
          t2 <- run unstaged_line t1 (unstaged w) ;;
          run untracked_line t2 (untracked w)
      end
  end.

Fixpoint get_file_git_status (t : table) (p : cstr) : ascii :=
  match t with
  | [] => " "
  | e :: rest => if streq (path e) p then status e
                 else get_file_git_status rest p
  end.

Definition get_git_color (status : ascii) : cstr :=
  if is_one_of "Mm" status then ESC :: cs "[33m"
  else if is_one_of "Aa" status then ESC :: cs "[32m"
  else if is_one_of "Dd" status then ESC :: cs "[31m"
  else if is_one_of "Rr" status then ESC :: cs "[35m"
  else if is_one_of "Cc" status then ESC :: cs "[36m"
  else if Ascii.eqb status "?" then ESC :: cs "[90m"
  else if Ascii.eqb status "!" then ESC :: cs "[90m"
  else [].

End Lg.

(* ================================================================== *)
(** ** Vocabulary of the specification *)

Module Spec.
Import LgV2.

(** The status alphabet of the presentation table. *)
Definition alphabet : list ascii := cs "MmAaDdRrCc?! ".
Definition staged_codes : list ascii := cs "MADRC".
Definition unstaged_codes : list ascii := cs "madrc".

(** A code that says "nothing to show": ['.'] or a space. *)
Definition clean_code (c : ascii) : bool :=
  (Ascii.eqb c "." || Ascii.eqb c " ")%bool.

(** The precedence rule on one entry. *)
Definition display (e : GitStatus) : ascii :=
  if negb (clean_code (status_staged e)) then status_staged e
  else if negb (clean_code (status_unstaged e))
       then tolower (status_unstaged e)
       else " ".

(** The prefix as a string: an absent prefix is the empty one. *)
Definition prefix_string (o : option cstr) : cstr :=
  match o with Some p => p | None => [] end.

(** Lookup as the specification words it: the full key is
    [relativePrefix + entryName]; exact-match search; the precedence rule
    on the matched entry; the clean sentinel when nothing matches. *)
Definition lookup_spec (ctx : GitContext) (name : cstr) : ascii :=
  match find (fun e => streq (path e) (prefix_string (rel_prefix ctx) ++ name))
             (statuses ctx) with
  | Some e => display e
  | None => " "
  end.

(** The key [get_file_git_status] compares with: the full key cut to what
    [full_path] holds. *)
Definition lookup_key (PATH_MAX : positive) (ctx : GitContext) (name : cstr)
  : cstr :=
  take_z (Z.pos PATH_MAX - 1) (prefix_string (rel_prefix ctx) ++ name).

(** Where a line can sit in the raw output: what precedes it is empty or
    ends with a newline, what follows is empty or starts with one. *)
Definition line_start (pre : cstr) : Prop :=
  pre = [] \/ exists q, pre = q ++ [NL].

Definition line_end (post : cstr) : Prop :=
  post = [] \/ exists q, post = NL :: q.

(** The white-space-delimited fields of a line, and the last of them. *)
Fixpoint space_segments (s : cstr) : cstr * list cstr :=
  match s with
  | [] => ([], [])
  | c :: r =>
      let (cur, more) := space_segments r in
      if isspace c then ([], cur :: more) else (c :: cur, more)
  end.

Definition fields (s : cstr) : list cstr :=
  let (cur, more) := space_segments s in filter nonempty (cur :: more).

Definition last_field (s : cstr) : cstr := last (fields s) [].

(** A line of the status output that [parse_line] reads and rejects: its
    record type is ['1'], ['2'] or ['?'] and [sscanf] does not convert the
    expected number of fields. *)
Definition malformed (PATH_MAX : positive) (line : cstr) : bool :=
  let c := char_at line 0 in
  if (Ascii.eqb c "1" || Ascii.eqb c "2")%bool then
    match sscanf line (fmt_tracked PATH_MAX) with
    | Ok (n, _) => negb (n =? 2)
    | Fault => false
    end
  else if Ascii.eqb c "?" then
    match sscanf line (fmt_untracked PATH_MAX) with
    | Ok (n, _) => negb (n =? 1)
    | Fault => false
    end
  else false.

(** The entry a line stands for, if any. *)
Definition entry_of (PATH_MAX : positive) (line : cstr) : option GitStatus :=
  let c := char_at line 0 in
  if (Ascii.eqb c "1" || Ascii.eqb c "2")%bool then
    match sscanf line (fmt_tracked PATH_MAX) with
    | Ok (n, [xy; p]) =>
        if n =? 2
        then Some {| path := p; status_staged := char_at xy 0;
                     status_unstaged := char_at xy 1 |}
        else None
    | _ => None
    end
  else if Ascii.eqb c "?" then
    match sscanf line (fmt_untracked PATH_MAX) with
    | Ok (n, [p]) =>
        if n =? 1
        then Some {| path := p; status_staged := "?"; status_unstaged := "?" |}
        else None
    | _ => None
    end
  else None.

Definition entries_of (PATH_MAX : positive) (lines : list cstr)
  : list GitStatus :=
  flat_map (fun line => match entry_of PATH_MAX line with
                        | Some e => [e]
                        | None => []
                        end) lines.


(** The context the parse starts from: no entry yet, the initial capacity,
    the prefix already computed. *)
Definition empty_context (p : option cstr) : GitContext :=
  {| statuses := []; capacity := INITIAL_CAPACITY; rel_prefix := p |}.


End Spec.

(* ================================================================== *)
(** ** Machines used in the examples *)

(** A child that prints [text] and exits with [code]; the parent reads it
    in one piece. *)
Definition prints (text : cstr) (code : Z) : child :=
  {| pipe_ok := true; fork_ok := true; reads := [Rdata text];
     wstatus := Exited code |}.

(** A machine where the listing runs in the directory [/r] of the
    repository [/r]. *)
Definition in_repository_root (status : child) : LgV2.os :=
  {| LgV2.calloc_ok := true;
     LgV2.cwd_before := Some (cs "/r");
     LgV2.chdir_ok := true;
     LgV2.rev_parse := prints (cs "/r" ++ [NL]) 0;
     LgV2.cwd_after := Some (cs "/r");
     LgV2.git_status := status;
     LgV2.realloc_ok := fun _ => true;
     LgV2.junk := fun _ => "x"%char |}.

(** The same machine when the listing runs in the directory [/r/sub]. *)
Definition in_subdirectory (status : child) : LgV2.os :=
  {| LgV2.calloc_ok := true;
     LgV2.cwd_before := Some (cs "/r");
     LgV2.chdir_ok := true;
     LgV2.rev_parse := prints (cs "/r" ++ [NL]) 0;
     LgV2.cwd_after := Some (cs "/r/sub");
     LgV2.git_status := status;
     LgV2.realloc_ok := fun _ => true;
     LgV2.junk := fun _ => "x"%char |}.

(* ================================================================== *)
(** ** lg_v2.c: the listing around the engine *)

(** [strcasecmp] in the C locale: the difference of the first two
    lower-cased bytes that differ, the terminator counting as 0. *)
Fixpoint strcasecmp (a b : cstr) : Z :=
  match a, b with
  | [], [] => 0
  | [], y :: _ => 0 - Z.of_nat (nat_of_ascii (tolower y))
  | x :: _, [] => Z.of_nat (nat_of_ascii (tolower x))
  | x :: a', y :: b' =>
      let d := Z.of_nat (nat_of_ascii (tolower x))
               - Z.of_nat (nat_of_ascii (tolower y)) in
      if d =? 0 then strcasecmp a' b' else d
  end.

(** Conversion of a wider integer to [int]: reduction modulo [2^32] into
    [-2^31 .. 2^31 - 1]. *)
Definition to_int (z : Z) : Z := (z + 2 ^ 31) mod 2 ^ 32 - 2 ^ 31.

Definition INT_MAX : Z := 2 ^ 31 - 1.

Module LgV2Main.

Inductive DetailLevel : Type :=
| DETAIL_MINIMAL
| DETAIL_STANDARD
| DETAIL_FULL.

Inductive OutputFormat : Type :=
| FORMAT_NORMAL
| FORMAT_JSON
| FORMAT_PORCELAIN.

Record FileInfo : Type := {
  name : cstr;
  mode : Z;
  size : Z;
  mtime : Z;
  uid : Z;
  gid : Z;
  git_status : ascii;
  is_dir : Z;
  is_exec : Z;
  is_symlink : Z
}.

(** [count] is the length of [files]. *)
Record FileList : Type := {
  files : list FileInfo;
  capacity : Z
}.

Definition count (l : FileList) : Z := Z.of_nat (List.length (files l)).

(** *** safe_path_join

    The return value and [dest] afterwards.  [snprintf] returns the length
    of the whole text, or a negative value when that exceeds [INT_MAX]. *)
Definition safe_path_join (dest : cstr) (dest_size : Z) (dir file : cstr)
  : Z * cstr :=
  let text := dir ++ cs "/" ++ file in
  let n := if INT_MAX <? strlen text then -1 else strlen text in
  (if ((n <? 0) || (dest_size <=? n))%bool then -1 else 0,
   snprintf dest dest_size text).

(** *** filelist_create and filelist_add *)

Definition filelist_create (malloc_ok calloc_ok : bool) : option FileList :=
  if malloc_ok then
    if calloc_ok
    then Some {| files := []; capacity := LgV2.INITIAL_CAPACITY |}
    else None
  else None.

(** The return value and the list afterwards.  The new element is stored
    at index [count]: a fault when that is not below the capacity.  When
    [strdup] fails the name of that slot is NULL and the count stays. *)
Definition filelist_add (realloc_ok : Z -> bool) (strdup_ok : bool)
           (list : option FileList) (info : option FileInfo)
  : outcome (Z * option FileList) :=
  match list, info with
  | Some l, Some i =>
      let grown :=
        if capacity l <=? count l then
          let new_capacity := size_mul (capacity l) 2 in
          if realloc_ok new_capacity
          then Some {| files := files l; capacity := new_capacity |}
          else None
        else Some l in
      match grown with
      | None => Ok (-1, Some l)
      | Some l1 =>
          if capacity l1 <=? count l1 then Fault
          else if strdup_ok
               then Ok (0, Some {| files := files l1 ++ [i];
                                   capacity := capacity l1 |})
               else Ok (-1, Some l1)
      end
  | _, _ => Ok (-1, list)
  end.

(** *** compare_name and compare_time

    [mtime] is a [time_t]; the difference is returned as an [int]. *)
Definition compare_name (a b : FileInfo) : Z := strcasecmp (name a) (name b).

Definition compare_time (a b : FileInfo) : Z := to_int (mtime a - mtime b).

(** *** The option loop of [main]

    The global options, and what the [switch] does with the values
    [getopt_long] returns, in order, until it returns -1. *)
Record options : Type := {
  detail_level : DetailLevel;
  output_format : OutputFormat;
  show_all : bool;
  sort_alphabetical : bool;
  show_branch : bool;
  show_legend : bool
}.

Definition initial_options : options :=
  {| detail_level := DETAIL_MINIMAL; output_format := FORMAT_NORMAL;
     show_all := false; sort_alphabetical := false;
     show_branch := false; show_legend := false |}.

(** [main] returns at once with this code, or goes on to list. *)
Inductive parsed : Type :=
| Return (code : Z)
| Proceed (o : options).

Definition option_l (d : DetailLevel) : DetailLevel :=
  match d with
  | DETAIL_MINIMAL => DETAIL_STANDARD
  | DETAIL_STANDARD => DETAIL_FULL
  | DETAIL_FULL => DETAIL_FULL
  end.

Fixpoint parse_options (opts : list ascii) (o : options) : parsed :=
  match opts with
  | [] => Proceed o
  | opt :: rest =>
      if Ascii.eqb opt "a" then
        parse_options rest
          {| detail_level := detail_level o; output_format := output_format o;
             show_all := true; sort_alphabetical := sort_alphabetical o;
             show_branch := show_branch o; show_legend := show_legend o |}
      else if Ascii.eqb opt "n" then
        parse_options rest
          {| detail_level := detail_level o; output_format := output_format o;
             show_all := show_all o; sort_alphabetical := true;
             show_branch := show_branch o; show_legend := show_legend o |}
      else if Ascii.eqb opt "l" then
        parse_options rest
          {| detail_level := option_l (detail_level o);
             output_format := output_format o;
             show_all := show_all o; sort_alphabetical := sort_alphabetical o;
             show_branch := show_branch o; show_legend := show_legend o |}
      else if Ascii.eqb opt "h" then Return 0
      else if Ascii.eqb opt "j" then
        parse_options rest
          {| detail_level := detail_level o; output_format := FORMAT_JSON;
             show_all := show_all o; sort_alphabetical := sort_alphabetical o;
             show_branch := show_branch o; show_legend := show_legend o |}
      else if Ascii.eqb opt "p" then
        parse_options rest
          {| detail_level := detail_level o; output_format := FORMAT_PORCELAIN;
             show_all := show_all o; sort_alphabetical := sort_alphabetical o;
             show_branch := show_branch o; show_legend := show_legend o |}
      else if Ascii.eqb opt "b" then
        parse_options rest
          {| detail_level := detail_level o; output_format := output_format o;
             show_all := show_all o; sort_alphabetical := sort_alphabetical o;
             show_branch := true; show_legend := show_legend o |}
      else if Ascii.eqb opt "L" then
        parse_options rest
          {| detail_level := detail_level o; output_format := output_format o;
             show_all := show_all o; sort_alphabetical := sort_alphabetical o;
             show_branch := show_branch o; show_legend := true |}
      else Return 1
  end.

(** *** The directory loop of [main] *)

(** What [lstat] fills in. *)
Record stat : Type := {
  st_mode : Z;
  st_size : Z;
  st_mtime : Z;
  st_uid : Z;
  st_gid : Z
}.

(** The file type and permission bits of <sys/stat.h>. *)
Definition S_IFMT : Z := 61440.   (* 0170000 *)
Definition S_IFDIR : Z := 16384.  (* 0040000 *)
Definition S_IFLNK : Z := 40960.  (* 0120000 *)
Definition S_IRUSR : Z := 256.    (* 0400 *)
Definition S_IWUSR : Z := 128.
Definition S_IXUSR : Z := 64.
Definition S_IRGRP : Z := 32.
Definition S_IWGRP : Z := 16.
Definition S_IXGRP : Z := 8.
Definition S_IROTH : Z := 4.
Definition S_IWOTH : Z := 2.
Definition S_IXOTH : Z := 1.

Definition S_ISDIR (m : Z) : Z :=
  if Z.land m S_IFMT =? S_IFDIR then 1 else 0.

Definition S_ISLNK (m : Z) : Z :=
  if Z.land m S_IFMT =? S_IFLNK then 1 else 0.

(** What the operating system answers while the directory is read. *)
Record dir_os : Type := {
  lstat : cstr -> option stat;
  realloc_ok : Z -> bool;
  strdup_ok : cstr -> bool
}.

Section WithLimits.

Variable PATH_MAX : positive.

(** The body of the [while ((entry = readdir(dir)) != NULL)] loop; the
    result of [filelist_add] is not looked at. *)
Definition read_entry (w : dir_os) (all : bool)
           (git_ctx : option LgV2.GitContext) (dir_path : cstr)
           (l : FileList) (d_name : cstr) : outcome FileList :=
  if (negb all && Ascii.eqb (char_at d_name 0) ".")%bool then Ok l
  else
    let joined := safe_path_join [] (Z.pos PATH_MAX) dir_path d_name in
    if negb (fst joined =? 0) then Ok l
    else
      match lstat w (snd joined) with
      | None => Ok l
      | Some st =>
          let info :=
            {| name := d_name;
               mode := st_mode st;
               size := st_size st;
               mtime := st_mtime st;
               uid := st_uid st;
               gid := st_gid st;
               git_status :=
                 match git_ctx with
                 | Some _ =>
                     LgV2.get_file_git_status PATH_MAX git_ctx (Some d_name)
                 | None => " "%char
                 end;
               is_dir := S_ISDIR (st_mode st);
               is_exec := Z.land (st_mode st) S_IXUSR;
               is_symlink := S_ISLNK (st_mode st) |} in
          r <- filelist_add (realloc_ok w) (strdup_ok w d_name)
                 (Some l) (Some info) ;;
          match snd r with
          | Some l' => Ok l'
          | None => Ok l
          end
      end.

Fixpoint read_directory (w : dir_os) (all : bool)
         (git_ctx : option LgV2.GitContext) (dir_path : cstr)
         (l : FileList) (entries : list cstr) : outcome FileList :=
  match entries with
  | [] => Ok l
  | d_name :: rest =>
      l' <- read_entry w all git_ctx dir_path l d_name ;;
      read_directory w all git_ctx dir_path l' rest
  end.

End WithLimits.

(** *** The permission column of the standard detail level *)

Definition flag (m bit : Z) (c : ascii) : ascii :=
  if Z.land m bit =? 0 then "-"%char else c.

(** [perm_str] after the [snprintf] into its 11 bytes. *)
Definition perm_str (f : FileInfo) : cstr :=
  snprintf [] 11
    [ (if is_dir f =? 0
       then (if is_symlink f =? 0 then "-"%char else "l"%char)
       else "d"%char);
      flag (mode f) S_IRUSR "r"; flag (mode f) S_IWUSR "w";
      flag (mode f) S_IXUSR "x";
      flag (mode f) S_IRGRP "r"; flag (mode f) S_IWGRP "w";
      flag (mode f) S_IXGRP "x";
      flag (mode f) S_IROTH "r"; flag (mode f) S_IWOTH "w";
      flag (mode f) S_IXOTH "x" ].

End LgV2Main.

(* ================================================================== *)
(** ** Vocabulary of the further properties *)

Module Props.

(** No NUL inside: the list is a C string as it stands. *)
Definition nul_free (s : list ascii) : bool :=
  forallb (fun c => negb (Ascii.eqb c NUL)) s.

(** The array a [%s] stores into is large enough for every field an input
    of [n] bytes can give: the input is shorter than the array, or the
    field width is. *)
Definition dest_fits (n : Z) (d : directive) : Prop :=
  match d with
  | Dstr width (Some size) =>
      n < size \/
      match width with Some k => Z.of_nat k < size | None => False end
  | _ => True
  end.



(** The sign of a comparison result. *)
Definition sign (z : Z) : Z := Z.sgn z.

(** A name compared without regard to the case of ASCII letters. *)
Definition folded (s : cstr) : cstr := map tolower s.

(** The entries a listing keeps: not hidden (or all are shown), the joined
    path fits, [lstat] succeeds. *)
Definition listed (PATH_MAX : positive) (w : LgV2Main.dir_os) (all : bool)
           (dir_path d_name : cstr) : bool :=
  (negb (negb all && Ascii.eqb (char_at d_name 0) ".") &&
   (strlen (dir_path ++ cs "/" ++ d_name) <? Z.pos PATH_MAX) &&
   match LgV2Main.lstat w (dir_path ++ cs "/" ++ d_name) with
   | Some _ => true
   | None => false
   end)%bool.

(** The status of a listed file is the lookup of its name. *)
Definition annotated (PATH_MAX : positive)
           (git_ctx : option LgV2.GitContext) (f : LgV2Main.FileInfo) : Prop :=
  LgV2Main.git_status f =
  LgV2.get_file_git_status PATH_MAX git_ctx (Some (LgV2Main.name f)).

(** Every line [fgets] delivers from the stream of a command of [lg.c] is
    shorter than [MAX_PATH]. *)
Definition short_lines (fp : option (list ascii)) : Prop :=
  match fp with
  | None => True
  | Some stream =>
      Forall (fun line => strlen line < Lg.MAX_PATH)
             (Lg.fgets_lines (Lg.MAX_PATH + 10) stream)
  end.

(** A character [%s] takes into a field: neither white space nor NUL. *)
Definition plain (c : ascii) : bool :=
  (negb (isspace c) && negb (Ascii.eqb c NUL))%bool.

(** A record of [git diff --name-status] as git prints it: the status
    letter, a tab, the path and a newline. *)
Definition name_status_record (r : ascii * cstr) : list ascii :=
  fst r :: TAB :: snd r ++ [NL].

Definition plain_record (r : ascii * cstr) : Prop :=
  plain (fst r) = true /\ snd r <> [] /\
  forallb plain (snd r) = true /\ strlen (snd r) < Lg.MAX_PATH.

Definition entry_of_record (r : ascii * cstr) : Lg.GitStatus :=
  {| Lg.path := snd r; Lg.status := fst r |}.

(** The table stays within the [MAX_FILES] entries of [git_statuses] and
    keeps what it held. *)
Definition table_kept (t t' : Lg.table) : Prop :=
  Lg.git_status_count t' <= Lg.MAX_FILES /\ exists new, t' = t ++ new.

(** The nine permission characters of a mode. *)
Definition perm_bits (m : Z) : cstr :=
  [LgV2Main.flag m LgV2Main.S_IRUSR "r"; LgV2Main.flag m LgV2Main.S_IWUSR "w";
   LgV2Main.flag m LgV2Main.S_IXUSR "x";
   LgV2Main.flag m LgV2Main.S_IRGRP "r"; LgV2Main.flag m LgV2Main.S_IWGRP "w";
   LgV2Main.flag m LgV2Main.S_IXGRP "x";
   LgV2Main.flag m LgV2Main.S_IROTH "r"; LgV2Main.flag m LgV2Main.S_IWOTH "w";
   LgV2Main.flag m LgV2Main.S_IXOTH "x"].

(** Reading the permission column back: the nine permission bits. *)
Definition bit_of (c : ascii) (bit : Z) : Z :=
  if Ascii.eqb c "-" then 0 else bit.

Definition mode_of_perm (p : cstr) : Z :=
  match p with
  | [_; r1; w1; x1; r2; w2; x2; r3; w3; x3] =>
      bit_of r1 256 + bit_of w1 128 + bit_of x1 64 +
      bit_of r2 32 + bit_of w2 16 + bit_of x2 8 +
      bit_of r3 4 + bit_of w3 2 + bit_of x3 1
  | _ => -1
  end.

End Props.

(** A regular file with a name and a modification time. *)
Definition file_named (n : cstr) (t : Z) : LgV2Main.FileInfo :=
  {| LgV2Main.name := n; LgV2Main.mode := 33188; LgV2Main.size := 0;
     LgV2Main.mtime := t; LgV2Main.uid := 0; LgV2Main.gid := 0;
     LgV2Main.git_status := " "%char; LgV2Main.is_dir := 0;
     LgV2Main.is_exec := 0; LgV2Main.is_symlink := 0 |}.

(** A directory where [lstat] succeeds on every name but [gone]. *)
Definition plain_directory (gone : cstr) : LgV2Main.dir_os :=
  {| LgV2Main.lstat := fun p =>
       if streq p gone then None
       else Some {| LgV2Main.st_mode := 33188; LgV2Main.st_size := 10;
                    LgV2Main.st_mtime := 1700000000;
                    LgV2Main.st_uid := 1000; LgV2Main.st_gid := 1000 |};
     LgV2Main.realloc_ok := fun _ => true;
     LgV2Main.strdup_ok := fun _ => true |}.

(* ================================================================== *)
(** ** Basic facts about the C library model *)

Lemma streq_refl (a : cstr) : streq a a = true.
Proof.
  induction a as [|x a IH]; simpl; [reflexivity|].
  now rewrite Ascii.eqb_refl, IH.
Qed.

Lemma streq_eq (a b : cstr) : streq a b = true <-> a = b.
Proof.
  split; [|intros ->; apply streq_refl].
  revert b; induction a as [|x a IH]; intros [|y b]; simpl; try discriminate; auto.
  intros H. apply andb_true_iff in H as [Hx Hab].
  apply Ascii.eqb_eq in Hx. apply IH in Hab. now subst.
Qed.

Lemma streq_neq (a b : cstr) : streq a b = false <-> a <> b.
Proof.
  rewrite <- streq_eq. destruct (streq a b); split; congruence.
Qed.

Lemma take_z_firstn {A} (n : Z) (l : list A) :
  take_z n l = firstn (Z.to_nat n) l.
Proof.
  revert n; induction l as [|x l IH]; intros n; simpl.
  - now rewrite firstn_nil.
  - destruct (Z.ltb_spec 0 n) as [Hn|Hn].
    + rewrite IH. replace (Z.to_nat n) with (S (Z.to_nat (n - 1))) by lia.
      reflexivity.
    + replace (Z.to_nat n) with O by lia. reflexivity.
Qed.

Lemma drop_z_skipn {A} (n : Z) (l : list A) :
  drop_z n l = skipn (Z.to_nat n) l.
Proof.
  revert n; induction l as [|x l IH]; intros n; simpl.
  - now rewrite skipn_nil.
  - destruct (Z.ltb_spec 0 n) as [Hn|Hn].
    + rewrite IH. replace (Z.to_nat n) with (S (Z.to_nat (n - 1))) by lia.
      reflexivity.
    + replace (Z.to_nat n) with O by lia. reflexivity.
Qed.

Lemma take_z_all {A} (n : Z) (l : list A) :
  Z.of_nat (List.length l) <= n -> take_z n l = l.
Proof.
  intros H. rewrite take_z_firstn. apply firstn_all2. lia.
Qed.

Lemma strlen_app (a b : cstr) : strlen (a ++ b) = strlen a + strlen b.
Proof. unfold strlen. rewrite length_app. lia. Qed.

Lemma strlen_nonneg (a : cstr) : 0 <= strlen a.
Proof. unfold strlen. lia. Qed.

Lemma strlen_take_z (n : Z) (l : cstr) :
  0 <= n -> strlen (take_z n l) = Z.min n (strlen l).
Proof.
  intros H. unfold strlen. rewrite take_z_firstn, length_firstn. lia.
Qed.

(** A property of all 256 characters, checked by evaluation. *)
Ltac each_char c :=
  destruct c as [[] [] [] [] [] [] [] []]; vm_compute; try reflexivity;
  try discriminate; auto.

Lemma tolower_space (c : ascii) : tolower c = " "%char -> c = " "%char.
Proof. each_char c. Qed.

(* ================================================================== *)
(** ** Lookup: [get_file_git_status] of lg_v2.c *)

Section Lookup.
Import LgV2 Spec.
Variable PATH_MAX : positive.

Lemma full_path_of_key (ctx : GitContext) (name : cstr) :
  full_path_of PATH_MAX ctx name = lookup_key PATH_MAX ctx name.
Proof.
  unfold full_path_of, lookup_key, prefix_string, snprintf, safe_strncpy.
  assert (Hcopy : snd (if Z.pos PATH_MAX =? 0 then (-1, @nil ascii)
                       else if Z.pos PATH_MAX <=? strlen name
                            then (-1, take_z (Z.pos PATH_MAX - 1) name)
                            else (0, name))
                  = take_z (Z.pos PATH_MAX - 1) name).
  { destruct (Z.eqb_spec (Z.pos PATH_MAX) 0) as [H0|_]; [lia|].
    destruct (Z.leb_spec (Z.pos PATH_MAX) (strlen name)) as [Hle|Hlt]; cbn [snd].
    - reflexivity.
    - symmetry. apply take_z_all. unfold strlen in Hlt. lia. }
  destruct (rel_prefix ctx) as [p|].
  - destruct (Z.ltb_spec 0 (strlen p)) as [Hp|Hp].
    + destruct (Z.eqb_spec (Z.pos PATH_MAX) 0); [lia|reflexivity].
    + assert (p = []) as ->.
      { destruct p; [reflexivity|]. unfold strlen in Hp.
        cbn [List.length] in Hp. lia. }
      exact Hcopy.
  - exact Hcopy.
Qed.

Lemma display_space (e : GitStatus) :
  display e = " "%char <->
  clean_code (status_staged e) = true /\ clean_code (status_unstaged e) = true.
Proof.
  unfold display, clean_code.
  destruct (Ascii.eqb_spec (status_staged e) ".") as [Hs|Hs]; simpl.
  2: destruct (Ascii.eqb_spec (status_staged e) " ") as [Hs'|Hs']; simpl.
  3: { split; [congruence | intros [H _]; discriminate]. }
  all: destruct (Ascii.eqb_spec (status_unstaged e) ".") as [Hu|Hu]; simpl;
    [tauto|].
  all: destruct (Ascii.eqb_spec (status_unstaged e) " ") as [Hu'|Hu']; simpl;
    [tauto|].
  all: split; [intros H; apply tolower_space in H; congruence
              | intros [_ H]; discriminate].
Qed.

(** The loop answers from the first entry that equals the key and has a
    code to show. *)
Lemma scan_statuses_find (l : list GitStatus) (key : cstr) :
  scan_statuses l key =
  match find (fun e => streq (path e) key && negb (Ascii.eqb (display e) " "))%bool l with
  | Some e => display e
  | None => " "%char
  end.
Proof.
  induction l as [|e l IH]; simpl; [reflexivity|].
  destruct (streq (path e) key); simpl; [|exact IH].
  destruct (Ascii.eqb_spec (display e) " ") as [Hd|Hd]; simpl.
  - apply display_space in Hd as [Hs Hu]. unfold clean_code in Hs, Hu.
    apply orb_true_iff in Hs, Hu.
    destruct (Ascii.eqb (status_staged e) "."), (Ascii.eqb (status_staged e) " "),
      (Ascii.eqb (status_unstaged e) "."), (Ascii.eqb (status_unstaged e) " ");
      simpl; try exact IH; destruct Hs, Hu; discriminate.
  - unfold display, clean_code in *.
    destruct (Ascii.eqb (status_staged e) "."), (Ascii.eqb (status_staged e) " "),
      (Ascii.eqb (status_unstaged e) "."), (Ascii.eqb (status_unstaged e) " ");
      simpl in *; congruence.
Qed.

(** With one entry per path the first match is the only one. *)
Lemma scan_statuses_unique (l : list GitStatus) (key : cstr) :
  NoDup (map path l) ->
  scan_statuses l key =
  match find (fun e => streq (path e) key) l with
  | Some e => display e
  | None => " "%char
  end.
Proof.
  intros Hnd. rewrite scan_statuses_find.
  induction l as [|e l IH]; simpl; [reflexivity|].
  inversion Hnd as [|? ? Hnotin Hnd']; subst.
  destruct (streq (path e) key) eqn:Hk; simpl; [|exact (IH Hnd')].
  destruct (Ascii.eqb_spec (display e) " ") as [Hd|Hd]; simpl; [|reflexivity].
  rewrite Hd. apply streq_eq in Hk.
  assert (Hnone : find (fun e0 => streq (path e0) key &&
                          negb (Ascii.eqb (display e0) " "))%bool l = None).
  { destruct (find _ l) as [e'|] eqn:Hf; [|reflexivity].
    apply find_some in Hf as [Hin Hf]. apply andb_true_iff in Hf as [Hk' _].
    apply streq_eq in Hk'. exfalso. apply Hnotin.
    rewrite Hk, <- Hk'. now apply in_map. }
  now rewrite Hnone.
Qed.

Lemma find_by_path (l : list GitStatus) (e : GitStatus) :
  NoDup (map path l) -> In e l ->
  find (fun e' => streq (path e') (path e)) l = Some e.
Proof.
  induction l as [|x l IH]; intros Hnd Hin; [destruct Hin|].
  inversion Hnd as [|? ? Hnotin Hnd']; subst. cbn [find].
  destruct Hin as [->|Hin]; [now rewrite streq_refl|].
  destruct (streq (path x) (path e)) eqn:Hx; [|now apply IH].
  apply streq_eq in Hx. exfalso. apply Hnotin. rewrite Hx. now apply in_map.
Qed.

(** C1 (as amended).  Lookup is total.  It compares the entries with the
    full key [rel_prefix + filename] cut to [PATH_MAX - 1] bytes and answers
    from the first entry that equals this key and has a code to show: its
    staged code as it is when that is neither ['.'] nor a space, otherwise
    the lower-case form of its unstaged code; when no entry equals the key,
    or every entry that does has nothing to show, and when the context or
    the name is NULL, the answer is a space.  When the key is not cut and
    no two entries share a path this is the specification's rule, the
    precedence rule on the one matching entry, and an entry with a staged
    code answers with that code whatever its unstaged code is. *)
Theorem get_file_git_status_rule (ctx : GitContext) (name : cstr) :
  get_file_git_status PATH_MAX (Some ctx) (Some name) =
    match find (fun e => streq (path e) (lookup_key PATH_MAX ctx name) &&
                         negb (Ascii.eqb (display e) " "))%bool
               (statuses ctx) with
    | Some e => display e
    | None => " "%char
    end
  /\ get_file_git_status PATH_MAX None (Some name) = " "%char
  /\ get_file_git_status PATH_MAX (Some ctx) None = " "%char
  /\ (strlen (prefix_string (rel_prefix ctx) ++ name) < Z.pos PATH_MAX ->
      NoDup (map path (statuses ctx)) ->
      get_file_git_status PATH_MAX (Some ctx) (Some name) = lookup_spec ctx name
      /\ forall e, In e (statuses ctx) ->
           path e = prefix_string (rel_prefix ctx) ++ name ->
           clean_code (status_staged e) = false ->
           get_file_git_status PATH_MAX (Some ctx) (Some name) = status_staged e).
Proof.
  split; [|split; [reflexivity|split; [reflexivity|]]].
  - cbn [get_file_git_status]. rewrite full_path_of_key.
    apply scan_statuses_find.
  - intros Hlen Hnd.
    assert (Hspec : get_file_git_status PATH_MAX (Some ctx) (Some name) =
                    lookup_spec ctx name).
    { cbn [get_file_git_status].
      rewrite full_path_of_key, (scan_statuses_unique _ _ Hnd).
      unfold lookup_spec, lookup_key. rewrite take_z_all; [reflexivity|].
      unfold strlen in Hlen. lia. }
    split; [exact Hspec|].
    intros e Hin Hpath Hstaged. rewrite Hspec. unfold lookup_spec.
    rewrite <- Hpath, (find_by_path _ _ Hnd Hin).
    unfold display. now rewrite Hstaged.
Qed.

End Lookup.

(** An entry with a staged and an unstaged code, looked up from the
    directory [src/]. *)
Lemma get_file_git_status_rule_witness :
  let main_c := {| LgV2.path := cs "src/main.c"; LgV2.status_staged := "M";
                   LgV2.status_unstaged := "D" |} in
  let ctx := {| LgV2.statuses :=
                  [main_c;
                   {| LgV2.path := cs "src/util.c"; LgV2.status_staged := ".";
                      LgV2.status_unstaged := "M" |}];
                LgV2.capacity := 100;
                LgV2.rel_prefix := Some (cs "src/") |} in
  LgV2.get_file_git_status 4096 (Some ctx) (Some (cs "util.c")) = "m"%char /\
  LgV2.get_file_git_status 4096 (Some ctx) (Some (cs "main.c")) =
    Spec.lookup_spec ctx (cs "main.c") /\
  LgV2.get_file_git_status 4096 (Some ctx) (Some (cs "main.c")) = "M"%char.
Proof.
  intros main_c ctx. split; [reflexivity|].
  destruct (get_file_git_status_rule 4096 ctx (cs "main.c")) as [_ [_ [_ Hrule]]].
  destruct Hrule as [Hspec Hstaged].
  - vm_compute. reflexivity.
  - repeat constructor; simpl; intuition discriminate.
  - split; [exact Hspec|].
    apply (Hstaged main_c); [now left | reflexivity | reflexivity].
Defined.

(** C1 as stated fails.  First: two entries with the path [f], the earlier
    with nothing to show; the specification's rule answers from the matched
    (first) entry, the loop goes on to the second.  Second: in a directory
    whose prefix has 4094 bytes the key of [file.c] is cut to the prefix
    and [f], the path of another file; no entry equals the full key, yet
    the answer is that file's code. *)
Lemma lookup_spec_counterexample :
  (let ctx := {| LgV2.statuses :=
                   [{| LgV2.path := cs "f"; LgV2.status_staged := ".";
                       LgV2.status_unstaged := "." |};
                    {| LgV2.path := cs "f"; LgV2.status_staged := "M";
                       LgV2.status_unstaged := "." |}];
                 LgV2.capacity := 100;
                 LgV2.rel_prefix := None |} in
   LgV2.get_file_git_status 4096 (Some ctx) (Some (cs "f")) = "M"%char /\
   Spec.lookup_spec ctx (cs "f") = " "%char)
  /\
  (let deep := List.concat (repeat (cs "d/") 2047) in
   let ctx := {| LgV2.statuses :=
                   [{| LgV2.path := deep ++ cs "f"; LgV2.status_staged := "M";
                       LgV2.status_unstaged := "." |}];
                 LgV2.capacity := 100;
                 LgV2.rel_prefix := Some deep |} in
   LgV2.get_file_git_status 4096 (Some ctx) (Some (cs "file.c")) = "M"%char /\
   Spec.lookup_spec ctx (cs "file.c") = " "%char).
Proof. split; split; vm_compute; reflexivity. Qed.

(* ================================================================== *)
(** ** Presentation: [get_git_color] and [format_git_status] *)

Section Presentation.
Import Spec.

Lemma in_alphabet (c : ascii) :
  In c alphabet <-> is_one_of "MmAaDdRrCc?! " c = true.
Proof.
  unfold is_one_of, alphabet. rewrite existsb_exists. split.
  - intros H. exists c. split; [exact H | apply Ascii.eqb_refl].
  - intros [d [Hin Heq]]. apply Ascii.eqb_eq in Heq. now subst.
Qed.

Lemma outside_alphabet (c : ascii) (buf : cstr) :
  is_one_of "MmAaDdRrCc?! " c = false ->
  LgV2.format_git_status c buf 5 = cs "  " /\
  LgV2.get_git_color c = [] /\
  Lg.get_git_color c = [].
Proof.
  destruct c as [[] [] [] [] [] [] [] []]; vm_compute; intros H;
    solve [discriminate H | repeat split].
Qed.

Lemma v2_colors_injective (c d : ascii) :
  is_one_of "MmAaDdRrCc?! " c = true ->
  is_one_of "MmAaDdRrCc?! " d = true ->
  LgV2.get_git_color c = LgV2.get_git_color d -> c = d.
Proof.
  intros Hc Hd.
  apply in_alphabet in Hc, Hd. unfold alphabet in Hc, Hd.
  cbn in Hc, Hd.
  repeat (destruct Hc as [<-|Hc]); try contradiction;
    repeat (destruct Hd as [<-|Hd]); try contradiction;
    vm_compute; intros H; solve [reflexivity | discriminate H].
Qed.

(** C6 (as amended).  On the alphabet [{M,m,A,a,D,d,R,r,C,c,?,!,' '}] the
    table of lg_v2.c, written into the five-byte buffer of the caller, gives
    the solid circle for every upper-case code, the hollow circle for every
    lower-case code, ['?'] and ['!'] for themselves and blanks for the
    space; the colour of ['?'] is the grey 245, that of ['!'] the grey 240,
    the space has the empty colour token, and the thirteen colour tokens of
    lg_v2.c are pairwise distinct.  In lg.c the colour depends on the letter
    only: a lower-case code has the colour of its upper-case form, and ['?']
    and ['!'] share one grey. *)
Theorem presentation_table :
  (forall c buf, In c staged_codes ->
     LgV2.format_git_status c buf 5 = " "%char :: LgV2.solid_circle) /\
  (forall c buf, In c unstaged_codes ->
     LgV2.format_git_status c buf 5 = " "%char :: LgV2.hollow_circle) /\
  (forall buf, LgV2.format_git_status "?" buf 5 = cs " ?") /\
  (forall buf, LgV2.format_git_status "!" buf 5 = cs " !") /\
  (forall buf, LgV2.format_git_status " " buf 5 = cs "  ") /\
  LgV2.get_git_color "?" = ESC :: cs "[38;5;245m" /\
  LgV2.get_git_color "!" = ESC :: cs "[38;5;240m" /\
  LgV2.get_git_color " " = [] /\
  (forall c d, In c alphabet -> In d alphabet ->
     LgV2.get_git_color c = LgV2.get_git_color d -> c = d) /\
  (forall c, In c staged_codes ->
     Lg.get_git_color (tolower c) = Lg.get_git_color c) /\
  Lg.get_git_color "?" = Lg.get_git_color "!" /\
  Lg.get_git_color " " = [].
Proof.
  repeat split; try reflexivity.
  - intros c buf Hc. cbn in Hc.
    repeat (destruct Hc as [<-|Hc]); try contradiction; reflexivity.
  - intros c buf Hc. cbn in Hc.
    repeat (destruct Hc as [<-|Hc]); try contradiction; reflexivity.
  - intros c d Hc Hd. apply v2_colors_injective; now apply in_alphabet.
  - intros c Hc. cbn in Hc.
    repeat (destruct Hc as [<-|Hc]); try contradiction; reflexivity.
Qed.

(** C10.  A status character outside the alphabet gets the glyph of a clean
    file, two blanks, and the empty colour token, in lg_v2.c and in lg.c:
    both functions are total. *)
Theorem unknown_status_renders_clean (c : ascii) (buf : cstr) :
  ~ In c alphabet ->
  LgV2.format_git_status c buf 5 = LgV2.format_git_status " " buf 5 /\
  LgV2.format_git_status c buf 5 = cs "  " /\
  LgV2.get_git_color c = [] /\
  Lg.get_git_color c = [].
Proof.
  intros H.
  assert (Hc : is_one_of "MmAaDdRrCc?! " c = false).
  { destruct (is_one_of "MmAaDdRrCc?! " c) eqn:E; [|reflexivity].
    exfalso. apply H. now apply in_alphabet. }
  destruct (outside_alphabet c buf Hc) as [Hg [Hc2 Hc1]].
  repeat split; assumption.
Qed.

End Presentation.

Lemma presentation_table_witness :
  LgV2.format_git_status "M" [] 5 = " "%char :: LgV2.solid_circle /\
  LgV2.format_git_status "m" [] 5 = " "%char :: LgV2.hollow_circle /\
  LgV2.get_git_color "M" <> LgV2.get_git_color "m" /\
  Lg.get_git_color (tolower "D") = Lg.get_git_color "D".
Proof.
  destruct presentation_table as [Hup [Hlow [_ [_ [_ [_ [_ [_ [Hinj [Hcase _]]]]]]]]]].
  split; [apply Hup; cbn; tauto|].
  split; [apply Hlow; cbn; tauto|].
  split.
  - intros Heq. apply Hinj in Heq; [discriminate Heq | cbn; tauto | cbn; tauto].
  - apply Hcase. cbn. tauto.
Defined.

(** C6 as stated fails on lg.c: [M] and [m] have the same colour token. *)
Lemma lg_color_counterexample :
  In "M"%char Spec.alphabet /\ In "m"%char Spec.alphabet /\
  "M"%char <> "m"%char /\
  Lg.get_git_color "M" = Lg.get_git_color "m".
Proof.
  repeat split; try (cbn; tauto); try discriminate.
Qed.

Lemma unknown_status_renders_clean_witness :
  ~ In "x"%char Spec.alphabet /\
  LgV2.format_git_status "x" [] 5 = cs "  " /\
  LgV2.get_git_color "x" = [].
Proof.
  assert (H : ~ In "x"%char Spec.alphabet).
  { cbn. intros H. repeat (destruct H as [H|H]; [discriminate H|]). exact H. }
  split; [exact H|].
  destruct (unknown_status_renders_clean "x" [] H) as [_ [Hg [Hc _]]].
  split; assumption.
Defined.

(* ================================================================== *)
(** ** The status parser (lg_v2.c, lines 317-357) *)

Section Parser.
Import LgV2 Spec.
Variable PATH_MAX : positive.
Variable realloc : Z -> bool.

Lemma segments_app (a b : cstr) :
  segments (a ++ NL :: b) =
  (fst (segments a), snd (segments a) ++ fst (segments b) :: snd (segments b)).
Proof.
  induction a as [|c a IH]; cbn [app segments].
  - rewrite Ascii.eqb_refl. destruct (segments b); reflexivity.
  - rewrite IH. destruct (segments a) as [ca ma]. cbn [fst snd].
    destruct (Ascii.eqb c NL); reflexivity.
Qed.

Lemma strtok_lines_app (a b : cstr) :
  strtok_lines (a ++ NL :: b) = strtok_lines a ++ strtok_lines b.
Proof.
  unfold strtok_lines. rewrite segments_app.
  destruct (segments a) as [ca ma], (segments b) as [cb mb]. cbn [fst snd].
  change (ca :: ma ++ cb :: mb) with ((ca :: ma) ++ cb :: mb).
  apply filter_app.
Qed.

Lemma segments_one (s : cstr) : ~ In NL s -> segments s = (s, []).
Proof.
  induction s as [|c s IH]; intros Hnl; cbn [segments]; [reflexivity|].
  rewrite IH by (intros H; apply Hnl; now right).
  destruct (Ascii.eqb_spec c NL) as [->|_]; [|reflexivity].
  exfalso. apply Hnl. now left.
Qed.

Lemma strtok_lines_one (s : cstr) :
  ~ In NL s -> s <> [] -> strtok_lines s = [s].
Proof.
  intros Hnl Hne. unfold strtok_lines. rewrite (segments_one _ Hnl).
  destruct s; [contradiction|reflexivity].
Qed.

Lemma parse_lines_app (ctx : GitContext) (l1 l2 : list cstr) :
  parse_lines PATH_MAX realloc ctx (l1 ++ l2) =
  (ctx' <- parse_lines PATH_MAX realloc ctx l1 ;;
   parse_lines PATH_MAX realloc ctx' l2).
Proof.
  revert ctx; induction l1 as [|l l1 IH]; intros ctx; cbn [app parse_lines bind].
  - reflexivity.
  - destruct (parse_line PATH_MAX realloc ctx l) as [ctx1|]; cbn [bind];
      [apply IH | reflexivity].
Qed.

Lemma malformed_nonempty (line : cstr) :
  malformed PATH_MAX line = true -> line <> [].
Proof. intros H ->. discriminate H. Qed.

(** A rejected line leaves the context as it is. *)
Lemma parse_line_malformed (ctx : GitContext) (line : cstr) :
  malformed PATH_MAX line = true ->
  parse_line PATH_MAX realloc ctx line = Ok ctx.
Proof.
  unfold malformed, parse_line. cbv zeta.
  destruct (Ascii.eqb (char_at line 0) "1" || Ascii.eqb (char_at line 0) "2")%bool.
  - destruct (sscanf line (fmt_tracked PATH_MAX)) as [[n outs]|];
      [|discriminate]. intros Hn. apply negb_true_iff in Hn. cbn [bind].
    destruct outs as [|xy [|p [|? ?]]]; try reflexivity. now rewrite Hn.
  - destruct (Ascii.eqb (char_at line 0) "?"); [|discriminate].
    destruct (sscanf line (fmt_untracked PATH_MAX)) as [[n outs]|];
      [|discriminate]. intros Hn. apply negb_true_iff in Hn. cbn [bind].
    destruct outs as [|p [|? ?]]; try reflexivity. now rewrite Hn.
Qed.

Lemma entry_of_malformed (line : cstr) :
  malformed PATH_MAX line = true -> entry_of PATH_MAX line = None.
Proof.
  unfold malformed, entry_of. cbv zeta.
  destruct (Ascii.eqb (char_at line 0) "1" || Ascii.eqb (char_at line 0) "2")%bool.
  - destruct (sscanf line (fmt_tracked PATH_MAX)) as [[n outs]|];
      [|discriminate]. intros Hn. apply negb_true_iff in Hn.
    destruct outs as [|xy [|p [|? ?]]]; try reflexivity. now rewrite Hn.
  - destruct (Ascii.eqb (char_at line 0) "?"); [|discriminate].
    destruct (sscanf line (fmt_untracked PATH_MAX)) as [[n outs]|];
      [|discriminate]. intros Hn. apply negb_true_iff in Hn.
    destruct outs as [|p [|? ?]]; try reflexivity. now rewrite Hn.
Qed.

(** While the array has room a line adds exactly the entry it stands
    for. *)
Lemma parse_line_entry (ctx ctx' : GitContext) (line : cstr) :
  parse_line PATH_MAX realloc ctx line = Ok ctx' ->
  count ctx < capacity ctx ->
  statuses ctx' =
    statuses ctx ++ match entry_of PATH_MAX line with Some e => [e] | None => [] end
  /\ capacity ctx' = capacity ctx.
Proof.
  unfold parse_line, entry_of. cbv zeta. intros H Hroom.
  assert (Hgrow : grow realloc ctx = ctx).
  { unfold grow. destruct (Z.leb_spec (capacity ctx) (count ctx)); [lia|reflexivity]. }
  assert (Hlt : (count ctx <? capacity ctx) = true) by now apply Z.ltb_lt.
  assert (Hnil : statuses ctx = statuses ctx ++ []) by now rewrite app_nil_r.
  destruct (Ascii.eqb (char_at line 0) "1" || Ascii.eqb (char_at line 0) "2")%bool.
  - destruct (sscanf line (fmt_tracked PATH_MAX)) as [[n outs]|];
      cbn [bind] in H; [|discriminate].
    destruct outs as [|xy [|p [|? ?]]]; injection H as <-; auto.
    destruct (n =? 2); auto.
    unfold add_tracked. rewrite Hgrow, Hlt. auto.
  - destruct (Ascii.eqb (char_at line 0) "?").
    + destruct (sscanf line (fmt_untracked PATH_MAX)) as [[n outs]|];
        cbn [bind] in H; [|discriminate].
      destruct outs as [|p [|? ?]]; injection H as <-; auto.
      destruct (n =? 1); auto.
      unfold add_untracked. rewrite Hlt. auto.
    + injection H as <-. auto.
Qed.

Lemma length_entry (line : cstr) :
  (List.length (match entry_of PATH_MAX line with Some e => [e] | None => [] end)
   <= 1)%nat.
Proof. destruct (entry_of PATH_MAX line); cbn; lia. Qed.

Lemma parse_lines_entries (lines : list cstr) :
  forall ctx ctx',
  parse_lines PATH_MAX realloc ctx lines = Ok ctx' ->
  count ctx + Z.of_nat (List.length lines) <= capacity ctx ->
  statuses ctx' = statuses ctx ++ entries_of PATH_MAX lines.
Proof.
  induction lines as [|line lines IH]; intros ctx ctx' H Hroom;
    cbn [parse_lines] in H.
  - injection H as <-. cbn. now rewrite app_nil_r.
  - cbn [List.length] in Hroom.
    destruct (parse_line PATH_MAX realloc ctx line) as [ctx1|] eqn:Hline;
      cbn [bind] in H; [|discriminate].
    destruct (parse_line_entry _ _ _ Hline) as [Hst Hcap]; [lia|].
    rewrite (IH _ _ H).
    + rewrite Hst. unfold entries_of. cbn [flat_map]. now rewrite app_assoc.
    + rewrite Hcap. unfold count in *. rewrite Hst, length_app.
      pose proof (length_entry line). lia.
Qed.





Lemma strtok_lines_nil : strtok_lines [] = [].
Proof. reflexivity. Qed.

Lemma strtok_lines_start (pre rest : cstr) :
  line_start pre ->
  strtok_lines (pre ++ rest) = strtok_lines pre ++ strtok_lines rest.
Proof.
  intros [->|[q ->]]; [reflexivity|].
  rewrite <- app_assoc. cbn [app]. rewrite !strtok_lines_app.
  rewrite strtok_lines_nil, app_nil_r. reflexivity.
Qed.

Lemma strtok_lines_end (line post : cstr) :
  ~ In NL line -> line <> [] -> line_end post ->
  strtok_lines (line ++ post) = line :: strtok_lines post.
Proof.
  intros Hnl Hne [->|[q ->]].
  - rewrite app_nil_r, strtok_lines_nil. now apply strtok_lines_one.
  - rewrite strtok_lines_app, (strtok_lines_one _ Hnl Hne).
    change (NL :: q) with ([] ++ NL :: q). rewrite strtok_lines_app.
    reflexivity.
Qed.

(** A line of the raw output whose record type is ['1'], ['2'] or ['?']
    and which fails the field count is skipped and the parse goes on: the
    result is the one the output without that line gives, the line itself
    stands for no entry, and while the array has room every other line
    contributes exactly the entry it stands for. *)
Theorem malformed_line_skipped (pre bad post : cstr) (ctx : GitContext) :
  malformed PATH_MAX bad = true ->
  ~ In NL bad ->
  line_start pre ->
  line_end post ->
  parse_status PATH_MAX realloc ctx (pre ++ bad ++ post) =
    parse_status PATH_MAX realloc ctx (pre ++ post)
  /\ entry_of PATH_MAX bad = None
  /\ (forall ctx',
        parse_status PATH_MAX realloc ctx (pre ++ bad ++ post) = Ok ctx' ->
        count ctx + Z.of_nat (List.length (strtok_lines (pre ++ post)))
          <= capacity ctx ->
        statuses ctx' =
          statuses ctx ++ entries_of PATH_MAX (strtok_lines pre)
                       ++ entries_of PATH_MAX (strtok_lines post)).
Proof.
  intros Hbad Hnl Hpre Hpost.
  assert (Hsame : parse_status PATH_MAX realloc ctx (pre ++ bad ++ post) =
                  parse_status PATH_MAX realloc ctx (pre ++ post)).
  { unfold parse_status.
    rewrite !(strtok_lines_start pre) by assumption.
    rewrite (strtok_lines_end bad post Hnl (malformed_nonempty _ Hbad) Hpost).
    rewrite !parse_lines_app.
    destruct (parse_lines PATH_MAX realloc ctx (strtok_lines pre)) as [c1|];
      cbn [bind parse_lines]; [|reflexivity].
    now rewrite (parse_line_malformed c1 bad Hbad). }
  split; [exact Hsame|]. split; [now apply entry_of_malformed|].
  intros ctx' Hparse Hroom. rewrite Hsame in Hparse. unfold parse_status in Hparse.
  rewrite (parse_lines_entries _ _ _ Hparse Hroom).
  rewrite (strtok_lines_start pre post Hpre).
  unfold entries_of. now rewrite flat_map_app.
Qed.

End Parser.

(** A record cut short between two complete ones. *)
Lemma malformed_line_skipped_witness :
  let ctx := {| LgV2.statuses := []; LgV2.capacity := 100;
                LgV2.rel_prefix := None |} in
  let pre := cs "1 M. N... 100644 100644 100644 abc123 def456 a.c" ++ [NL] in
  let bad := cs "1 .M N... 100644 1006" in
  let post := NL :: cs "? new.txt" ++ [NL] in
  Spec.malformed 4096 bad = true /\
  LgV2.parse_status 4096 (fun _ => true) ctx (pre ++ bad ++ post) =
    Ok {| LgV2.statuses :=
            [{| LgV2.path := cs "a.c"; LgV2.status_staged := "M";
                LgV2.status_unstaged := "." |};
             {| LgV2.path := cs "new.txt"; LgV2.status_staged := "?";
                LgV2.status_unstaged := "?" |}];
          LgV2.capacity := 100; LgV2.rel_prefix := None |}.
Proof.
  intros ctx pre bad post.
  assert (Hbad : Spec.malformed 4096 bad = true) by reflexivity.
  assert (Hnl : ~ In NL bad).
  { intros H. cbn in H. repeat (destruct H as [H|H]; [discriminate H|]). exact H. }
  assert (Hpre : Spec.line_start pre).
  { right. now exists (cs "1 M. N... 100644 100644 100644 abc123 def456 a.c"). }
  assert (Hpost : Spec.line_end post).
  { right. now exists (cs "? new.txt" ++ [NL]). }
  split; [exact Hbad|].
  destruct (malformed_line_skipped 4096 (fun _ => true) pre bad post ctx
              Hbad Hnl Hpre Hpost) as [Hsame _].
  rewrite Hsame. reflexivity.
Defined.

(* ------------------------------------------------------------------ *)
(** *** Tracked records *)

(** The scenario of the specification: an ordinary record is read as the
    code pair and the ninth field, and the file is found from its
    directory. *)
Lemma tracked_round_trip (realloc : Z -> bool) :
  let line := cs "1 M. N... 100644 100644 100644 abc123 def456 src/main.c" in
  let ctx := {| LgV2.statuses :=
                  [{| LgV2.path := cs "src/main.c"; LgV2.status_staged := "M";
                      LgV2.status_unstaged := "." |}];
                LgV2.capacity := 100; LgV2.rel_prefix := Some (cs "src/") |} in
  LgV2.parse_status 4096 realloc (Spec.empty_context (Some (cs "src/"))) line = Ok ctx /\
  Spec.last_field line = cs "src/main.c" /\
  LgV2.get_file_git_status 4096 (Some ctx) (Some (cs "main.c")) = "M"%char.
Proof. repeat split. Qed.

(** C3, at a rename record as [git status --porcelain=v2] prints it (the
    new path, a tab, the old path): the path stored is the ninth field, the
    similarity score [R100], neither the new path nor the last field of the
    line, and the renamed file is listed as clean. *)
Theorem rename_record_takes_score_field (realloc : Z -> bool) :
  let line := cs "2 R. N... 100644 100644 100644 abc123 def456 R100 new.c"
              ++ TAB :: cs "old.c" in
  let ctx := {| LgV2.statuses :=
                  [{| LgV2.path := cs "R100"; LgV2.status_staged := "R";
                      LgV2.status_unstaged := "." |}];
                LgV2.capacity := 100; LgV2.rel_prefix := None |} in
  LgV2.parse_status 4096 realloc (Spec.empty_context None) line = Ok ctx /\
  Spec.last_field line = cs "old.c" /\
  LgV2.get_file_git_status 4096 (Some ctx) (Some (cs "new.c")) = " "%char /\
  LgV2.get_file_git_status 4096 (Some ctx) (Some (cs "R100")) = "R"%char.
Proof.
  cbv zeta. split; [reflexivity|]. split; [reflexivity|].
  split; reflexivity.
Qed.

(** The same format on an ordinary record whose path has a blank: the
    ninth field is the path up to the blank. *)
Lemma tracked_path_with_blank (realloc : Z -> bool) :
  let line := cs "1 .M N... 100644 100644 100644 abc123 def456 my notes.txt" in
  LgV2.parse_status 4096 realloc (Spec.empty_context None) line =
    Ok {| LgV2.statuses :=
            [{| LgV2.path := cs "my"; LgV2.status_staged := ".";
                LgV2.status_unstaged := "M" |}];
          LgV2.capacity := 100; LgV2.rel_prefix := None |} /\
  Spec.last_field line = cs "notes.txt".
Proof. split; reflexivity. Qed.

(* ------------------------------------------------------------------ *)
(** *** Untracked records *)

(** The scenario of the specification. *)
Lemma untracked_scenario (realloc : Z -> bool) :
  let ctx := {| LgV2.statuses :=
                  [{| LgV2.path := cs "newfile.txt"; LgV2.status_staged := "?";
                      LgV2.status_unstaged := "?" |}];
                LgV2.capacity := 100; LgV2.rel_prefix := None |} in
  LgV2.parse_status 4096 realloc (Spec.empty_context None) (cs "? newfile.txt") = Ok ctx /\
  LgV2.get_file_git_status 4096 (Some ctx) (Some (cs "newfile.txt")) = "?"%char /\
  LgV2.format_git_status "?" [] 5 = cs " ?" /\
  LgV2.get_git_color "?" = ESC :: cs "[38;5;245m".
Proof. repeat split. Qed.

(** C5, at an untracked file whose name has a blank: ["? %s"] stores the
    name up to the blank, not the remainder of the line, and the file
    itself is listed as clean. *)
Theorem untracked_path_stops_at_blank (realloc : Z -> bool) :
  let line := cs "? my file.txt" in
  let ctx := {| LgV2.statuses :=
                  [{| LgV2.path := cs "my"; LgV2.status_staged := "?";
                      LgV2.status_unstaged := "?" |}];
                LgV2.capacity := 100; LgV2.rel_prefix := None |} in
  LgV2.parse_status 4096 realloc (Spec.empty_context None) line = Ok ctx /\
  LgV2.get_file_git_status 4096 (Some ctx) (Some (cs "my file.txt")) = " "%char /\
  LgV2.get_file_git_status 4096 (Some ctx) (Some (cs "my")) = "?"%char.
Proof.
  cbv zeta. split; [reflexivity|]. split; reflexivity.
Qed.

(** The untracked branch never enlarges the array: the 101st untracked
    record is dropped, where the tracked branch doubles the capacity. *)
Lemma untracked_beyond_capacity :
  let many (line : cstr) := List.concat (repeat (line ++ [NL]) 101) in
  let sizes (r : outcome LgV2.GitContext) :=
    ctx <- r ;; Ok (LgV2.count ctx, LgV2.capacity ctx) in
  sizes (LgV2.parse_status 4096 (fun _ => true) (Spec.empty_context None)
           (many (cs "? f"))) = Ok (100, 100) /\
  sizes (LgV2.parse_status 4096 (fun _ => true) (Spec.empty_context None)
           (many (cs "1 M. N... 100644 100644 100644 abc123 def456 f")))
    = Ok (101, 200).
Proof. split; vm_compute; reflexivity. Qed.

(** C7, at a status output of 100 tracked records, a record cut short and
    an untracked record.  The record cut short is skipped and the parse
    goes on: the result is the one of the output without it.  But the
    untracked record after it, well formed, produces no entry: the array
    is full and the untracked branch has no growth step, so the file is
    listed as clean.  With one tracked record less the same line produces
    its entry, and a tracked record in its place is stored after the
    capacity is doubled. *)
Theorem well_formed_line_lost_when_full :
  let tracked := cs "1 M. N... 100644 100644 100644 abc123 def456 f.c" ++ [NL] in
  let cut := cs "1 .M N... 100644 1006" ++ [NL] in
  let parse := LgV2.parse_status 4096 (fun _ => true) (Spec.empty_context None) in
  let seen (r : outcome LgV2.GitContext) (name : cstr) :=
    ctx <- r ;;
    Ok (LgV2.count ctx, LgV2.capacity ctx,
        LgV2.get_file_git_status 4096 (Some ctx) (Some name)) in
  seen (parse (List.concat (repeat tracked 100) ++ cut ++ cs "? u.txt"))
       (cs "u.txt") = Ok (100, 100, " "%char) /\
  parse (List.concat (repeat tracked 100) ++ cut ++ cs "? u.txt") =
    parse (List.concat (repeat tracked 100) ++ cs "? u.txt") /\
  seen (parse (List.concat (repeat tracked 99) ++ cut ++ cs "? u.txt"))
       (cs "u.txt") = Ok (100, 100, "?"%char) /\
  seen (parse (List.concat (repeat tracked 100) ++ cut ++
               cs "1 A. N... 100644 100644 100644 abc123 def456 t.c"))
       (cs "t.c") = Ok (101, 200, "A"%char).
Proof. cbv zeta. split; [|split; [|split]]; vm_compute; reflexivity. Qed.

(* ================================================================== *)
(** ** Merging the three sources (lg.c, [get_git_status]) *)

Section Merge.
Import Lg Spec.










End Merge.


(* ================================================================== *)
(** ** The subprocess runner (lg_v2.c, [exec_git_command]) *)

Section Runner.
Import LgV2 Spec Props.

Lemma take_z_nonpos {A} (n : Z) (l : list A) : n <= 0 -> take_z n l = [].
Proof.
  intros H. destruct l as [|x l]; cbn [take_z]; [reflexivity|].
  destruct (Z.ltb_spec 0 n); [lia|reflexivity].
Qed.

Lemma take_z_app (n : Z) (a b : cstr) :
  take_z n (a ++ b) = take_z n a ++ take_z (n - strlen a) b.
Proof.
  revert n; induction a as [|x a IH]; intros n; cbn [app take_z].
  - unfold strlen. cbn [List.length]. now rewrite Z.sub_0_r.
  - destruct (Z.ltb_spec 0 n) as [Hn|Hn].
    + rewrite IH. cbn [app].
      replace (n - strlen (x :: a)) with (n - 1 - strlen a)
        by (unfold strlen; cbn [List.length]; lia).
      reflexivity.
    + cbn [app]. symmetry. apply take_z_nonpos. pose proof (strlen_nonneg (x :: a)). lia.
Qed.

Lemma strlen_drop_z (n : Z) (l : cstr) :
  0 <= n <= strlen l -> strlen (drop_z n l) = strlen l - n.
Proof.
  intros H. unfold strlen in *. rewrite drop_z_skipn, length_skipn. lia.
Qed.

Lemma strlen_nil_inv (l : cstr) : strlen l <= 0 -> l = [].
Proof.
  destruct l; [reflexivity|]. unfold strlen. cbn [List.length]. lia.
Qed.

Lemma size_sub_small (a b : Z) :
  0 <= a - b < SIZE_MAX1 -> size_sub a b = a - b.
Proof. intros H. unfold size_sub. now apply Z.mod_small. Qed.

Lemma store_fits (buf : list ascii) (off : Z) (data : list ascii) :
  0 <= off -> off + strlen data <= strlen buf ->
  exists buf',
    store buf off data = Ok buf' /\
    strlen buf' = strlen buf /\
    take_z (off + strlen data) buf' = take_z off buf ++ data.
Proof.
  intros Hoff Hfit. pose proof (strlen_nonneg data) as Hd.
  exists (take_z off buf ++ data ++ drop_z (off + strlen data) buf).
  assert (Hpre : strlen (take_z off buf) = off).
  { rewrite strlen_take_z by assumption. lia. }
  unfold store.
  destruct (Z.leb_spec 0 off); [|lia].
  destruct (Z.leb_spec (off + strlen data) (strlen buf)); [|lia].
  cbn [andb]. split; [reflexivity|]. split.
  - rewrite !strlen_app, Hpre, strlen_drop_z by lia. lia.
  - rewrite take_z_app, Hpre, take_z_app.
    rewrite (take_z_all (off + strlen data) (take_z off buf))
      by (fold (strlen (take_z off buf)); lia).
    rewrite (take_z_all _ data) by (fold (strlen data); lia).
    rewrite (take_z_nonpos _ (drop_z _ _)) by lia.
    now rewrite app_nil_r.
Qed.

Lemma child_output_data (avail : list ascii) (evs : list read_event) :
  child_output (Rdata avail :: evs) =
  avail ++ (if 0 <? strlen avail then child_output evs else []).
Proof. destruct avail; reflexivity. Qed.

(** The [read] loop stays inside the array and keeps, after what was
    already read, the child's output up to [output_size - 1] bytes in
    all. *)
Lemma read_loop_bounded (evs : list read_event) :
  forall (output : list ascii) (output_size total_read : Z),
  0 < output_size < SIZE_MAX1 ->
  strlen output = output_size ->
  0 <= total_read <= output_size - 1 ->
  exists total output',
    read_loop evs output output_size total_read = Ok (total, output') /\
    total_read <= total <= output_size - 1 /\
    strlen output' = output_size /\
    take_z total output' =
      take_z total_read output ++
      take_z (output_size - 1 - total_read) (child_output evs).
Proof.
  induction evs as [|ev evs IH]; intros output size total Hsize Hlen Htot.
  - exists total, output. cbn [read_loop child_output].
    destruct (_ <=? _); rewrite app_nil_r; repeat split; lia.
  - destruct ev as [avail|].
    2: { exists total, output. cbn [read_loop child_output].
         destruct (_ <=? _); rewrite app_nil_r; repeat split; lia. }
    cbn [read_loop].
    rewrite (size_sub_small size total) by lia.
    rewrite (size_sub_small (size - total) 1) by lia.
    rewrite (size_sub_small size 1) by lia.
    destruct (Z.leb_spec SIZE_MAX1 (1 + total + (size - total - 1)))
      as [Hwrap|_]; [lia|].
    set (n := size - total - 1).
    set (got := take_z n avail).
    assert (Hgot : strlen got = Z.min n (strlen avail)).
    { unfold got. apply strlen_take_z. unfold n. lia. }
    pose proof (strlen_nonneg avail) as Havail.
    rewrite child_output_data.
    replace (size - 1 - total) with n by (unfold n; lia).
    destruct (Z.ltb_spec 0 (strlen got)) as [Hpos|Hzero].
    + destruct (store_fits output total got) as [out1 [Hstore [Hlen1 Htake1]]];
        [lia | lia |].
      rewrite Hstore. cbn [bind].
      assert (Hav : (0 <? strlen avail) = true) by (apply Z.ltb_lt; lia).
      rewrite Hav.
      destruct (Z.leb_spec (size - 1) (total + strlen got)) as [Hfull|Hmore].
      * exists (total + strlen got), out1.
        split; [reflexivity|]. split; [lia|]. split; [lia|].
        rewrite Htake1. f_equal. rewrite take_z_app.
        rewrite (take_z_nonpos (n - strlen avail)) by lia.
        now rewrite app_nil_r.
      * assert (Hall : got = avail).
        { unfold got. apply take_z_all. fold (strlen avail). lia. }
        destruct (IH out1 size (total + strlen got)) as [t2 [out2 [Hloop [Ht2 [Hlen2 Htake2]]]]];
          [lia | lia | lia |].
        exists t2, out2. split; [exact Hloop|]. split; [lia|]. split; [exact Hlen2|].
        rewrite Htake2, Htake1, Hall, <- app_assoc. f_equal.
        rewrite take_z_app, (take_z_all n avail) by (fold (strlen avail); lia).
        f_equal. f_equal. unfold n. lia.
    + exists total, output. split; [reflexivity|]. split; [lia|]. split; [exact Hlen|].
      assert (Hnone : take_z n (avail ++ (if 0 <? strlen avail
                                           then child_output evs else [])) = []).
      { destruct (Z.ltb_spec 0 (strlen avail)) as [Hav|Hav].
        - apply take_z_nonpos. lia.
        - rewrite (strlen_nil_inv avail Hav). cbn [app]. destruct (0 <? n); reflexivity. }
      now rewrite Hnone, app_nil_r.
Qed.

Lemma c_str_app_nul (a b : list ascii) : c_str (a ++ NUL :: b) = c_str a.
Proof.
  induction a as [|c a IH]; cbn [app c_str].
  - now rewrite Ascii.eqb_refl.
  - destruct (Ascii.eqb c NUL); [reflexivity | now rewrite IH].
Qed.

Lemma strlen_c_str (l : list ascii) : strlen (c_str l) <= strlen l.
Proof.
  unfold strlen. induction l as [|c l IH]; cbn [c_str List.length]; [lia|].
  destruct (Ascii.eqb c NUL); cbn [List.length]; lia.
Qed.


(** Inside an array of [output_size] bytes the runner never stores past the
    end; the array afterwards holds the child's output cut to
    [output_size - 1] bytes and a NUL after it. *)
Lemma exec_git_command_bounded (c : child) (output : list ascii)
      (output_size : Z) :
  0 < output_size < SIZE_MAX1 ->
  strlen output = output_size ->
  exists rc output',
    exec_git_command c output output_size = Ok (rc, output') /\
    strlen output' = output_size /\
    (pipe_ok c = true -> fork_ok c = true ->
     c_str output' = c_str (take_z (output_size - 1) (child_output (reads c))) /\
     strlen (c_str output') < output_size).
Proof.
  intros Hsize Hlen. unfold exec_git_command.
  destruct (pipe_ok c); cbn [negb].
  2: { exists (-1), output. repeat split; try assumption; discriminate. }
  destruct (fork_ok c); cbn [negb].
  2: { exists (-1), output. repeat split; try assumption; discriminate. }
  destruct (read_loop_bounded (reads c) output output_size 0 Hsize Hlen)
    as [t [o [Hloop [Ht [Hlo Htake]]]]]; [lia|].
  rewrite Hloop. cbn [bind fst snd].
  destruct (store_fits o t [NUL]) as [o' [Hstore [Hlo' Htake']]];
    [lia | unfold strlen at 1; cbn [List.length]; lia |].
  rewrite Hstore. cbn [bind].
  eexists _, o'. split; [reflexivity|]. split; [lia|].
  intros _ _.
  assert (Hdata : take_z t o = take_z (output_size - 1) (child_output (reads c))).
  { rewrite Htake. rewrite (take_z_nonpos 0) by lia. cbn [app].
    now rewrite Z.sub_0_r. }
  assert (Hsplit : o' = take_z t o ++ NUL :: drop_z (t + 1) o).
  { unfold store in Hstore.
    destruct ((0 <=? t) && (t + strlen [NUL] <=? strlen o))%bool; [|discriminate].
    injection Hstore as <-. reflexivity. }
  assert (Hstr : c_str o' = c_str (take_z t o)).
  { rewrite Hsplit. apply c_str_app_nul. }
  split; [now rewrite Hstr, Hdata|].
  rewrite Hstr. pose proof (strlen_c_str (take_z t o)) as Hle.
  rewrite strlen_take_z in Hle by lia. lia.
Qed.



Lemma c_str_nul_free (s : list ascii) : nul_free s = true -> c_str s = s.
Proof.
  induction s as [|c s IH]; cbn [nul_free forallb c_str]; [reflexivity|].
  intros H. apply andb_true_iff in H as [Hc Hs].
  apply negb_true_iff in Hc. rewrite Hc. f_equal. now apply IH.
Qed.


Lemma nul_free_app (a b : list ascii) :
  nul_free (a ++ b) = (nul_free a && nul_free b)%bool.
Proof. unfold nul_free. apply forallb_app. Qed.



End Runner.

(* ================================================================== *)
(** ** The relative prefix (lg_v2.c, lines 305-311) *)

Section Prefix.
Import LgV2 Spec.

Lemma drop_z_app {A} (a b : list A) :
  drop_z (Z.of_nat (List.length a)) (a ++ b) = b.
Proof.
  rewrite drop_z_skipn, Nat2Z.id, skipn_app, skipn_all, Nat.sub_diag.
  reflexivity.
Qed.

Lemma c_str_idem (s : list ascii) : c_str (c_str s) = c_str s.
Proof.
  induction s as [|c s IH]; cbn [c_str]; [reflexivity|].
  destruct (Ascii.eqb c NUL) eqn:Hc; [reflexivity|].
  cbn [c_str]. now rewrite Hc, IH.
Qed.

Lemma c_str_strdup (s : cstr) : c_str (strdup s) = c_str s.
Proof.
  unfold strdup. induction s as [|c s IH]; cbn [c_str app].
  - now rewrite Ascii.eqb_refl.
  - destruct (Ascii.eqb c NUL) eqn:Hc; cbn [c_str app].
    + now rewrite Ascii.eqb_refl.
    + now rewrite Hc, IH.
Qed.

(** The block [strdup] returns has no byte to spare: appending to the
    string it holds runs past its end. *)
Lemma strcat_strdup_faults (s : cstr) (c : ascii) (src : cstr) :
  Ascii.eqb c NUL = false ->
  strcat (strdup s) (c :: src) = Fault.
Proof.
  intros Hc. unfold strcat, store. rewrite c_str_strdup.
  cbn [c_str]. rewrite Hc.
  assert (Hblock : strlen (strdup s) = strlen (c_str s) + 1).
  { unfold strdup. rewrite strlen_app. reflexivity. }
  rewrite Hblock.
  pose proof (strlen_nonneg (c_str s)) as H0.
  pose proof (strlen_nonneg (c_str src ++ [NUL])) as H1.
  destruct (Z.leb_spec 0 (strlen (c_str s))); [|lia]. cbn [andb].
  destruct (Z.leb_spec (strlen (c_str s) + strlen ((c :: c_str src) ++ [NUL]))
                       (strlen (c_str s) + 1)) as [Hfit|_]; [|reflexivity].
  exfalso. unfold strlen in Hfit. cbn [app List.length] in Hfit.
  rewrite length_app in Hfit. cbn [List.length] in Hfit. lia.
Qed.

Lemma compute_prefix_below_root (root cwd : cstr) :
  strlen root < strlen cwd ->
  0 < strlen (c_str (drop_z (strlen root + 1) cwd)) ->
  compute_prefix root cwd = Fault.
Proof.
  intros Hlong Hrest. unfold compute_prefix. cbv zeta.
  destruct (Z.ltb_spec (strlen root) (strlen cwd)); [|lia].
  rewrite c_str_strdup.
  destruct (Z.ltb_spec 0 (strlen (c_str (drop_z (strlen root + 1) cwd)))); [|lia].
  change (cs "/") with ["/"%char].
  now rewrite strcat_strdup_faults.
Qed.

Lemma nul_free_drop_z (n : Z) (s : list ascii) :
  Props.nul_free s = true -> Props.nul_free (drop_z n s) = true.
Proof.
  revert n. induction s as [|c s IH]; intros n H; cbn [drop_z]; [reflexivity|].
  destruct (0 <? n); [|exact H].
  cbn [Props.nul_free forallb] in H. apply andb_true_iff in H as [_ Hs].
  now apply IH.
Qed.

End Prefix.

(** C4, in a directory below the root.  For the root [/r] and the current
    directory [/r/sub] the copy of [sub] fills the four bytes [strdup]
    allocates; [strcat] then stores the separator and the terminator at
    offsets 3 and 4, one byte past the block, so no prefix [sub/] is
    computed within bounds and the engine has overrun the block before
    it asks for the status.  A block one byte larger would hold [sub/].
    The same happens for every current directory that is longer than the
    root by more than one character; a directory not longer than the root
    gets no prefix, as the claim says. *)
Theorem prefix_append_overruns_block :
  LgV2.compute_prefix (cs "/r") (cs "/r/sub") = Fault /\
  strdup (cs "sub") = cs "sub" ++ [NUL] /\
  strcat (strdup (cs "sub")) (cs "/") = Fault /\
  (b <- strcat (cs "sub" ++ [NUL; NUL]) (cs "/") ;; Ok (c_str b)) = Ok (cs "sub/") /\
  LgV2.get_git_status 4096 (in_subdirectory (prints [] 0)) (Some (cs ".")) = Fault /\
  LgV2.compute_prefix (cs "/r") (cs "/r") = Ok None /\
  (forall root cwd : cstr,
     Props.nul_free cwd = true ->
     strlen root + 1 < strlen cwd ->
     LgV2.compute_prefix root cwd = Fault) /\
  (forall root cwd : cstr,
     strlen cwd <= strlen root -> LgV2.compute_prefix root cwd = Ok None).
Proof.
  split; [reflexivity|]. split; [reflexivity|]. split; [reflexivity|].
  split; [reflexivity|]. split; [vm_compute; reflexivity|].
  split; [reflexivity|]. split.
  - intros root cwd Hnul Hlong. pose proof (strlen_nonneg root) as Hroot.
    apply compute_prefix_below_root; [lia|].
    rewrite c_str_nul_free by now apply nul_free_drop_z.
    rewrite strlen_drop_z; lia.
  - intros root cwd Hle. unfold LgV2.compute_prefix.
    destruct (Z.ltb_spec (strlen root) (strlen cwd)); [lia|reflexivity].
Qed.

(* ================================================================== *)
(** ** The engine (lg_v2.c, [get_git_status]) and failing commands *)

Section Engine.
Import LgV2 Spec Props.
Variable PATH_MAX : positive.







End Engine.



(* ================================================================== *)
(** ** The capacity ceiling *)

(** C9, at an output above the ceiling: one tracked record whose path has
    70000 bytes.  The runner keeps the first 65535 bytes and a NUL inside
    its array of 65536, as claimed; the parser then stores the path, 65490
    bytes of it, into [path], an array of [PATH_MAX] bytes, and runs past
    its end. *)
Theorem long_path_overruns_path_array :
  let text := cs "1 M. N... 100644 100644 100644 abc123 def456 "
              ++ repeat "a"%char (Z.to_nat 70000) in
  let run := LgV2.exec_git_command (prints text 0)
               (array_of (fun _ => "x"%char) 65536) 65536 in
  (r <- run ;;
   Ok (fst r, strlen (snd r), streq (c_str (snd r)) (take_z 65535 text)))
    = Ok (0, 65536, true) /\
  (r <- run ;;
   LgV2.parse_status 4096 (fun _ => true) (Spec.empty_context None)
     (c_str (snd r))) = Fault /\
  LgV2.get_git_status 4096 (in_repository_root (prints text 0))
    (Some (cs ".")) = Fault.
Proof.
  cbv zeta. split; [|split]; vm_compute; reflexivity.
Qed.

(* ================================================================== *)
(** ** Further properties: the parser of lg_v2.c *)

Section ParserBounds.
Import LgV2 Spec Props.
Variable PATH_MAX : positive.
Variable realloc : Z -> bool.

Lemma skip_space_le (s : cstr) : strlen (skip_space s) <= strlen s.
Proof.
  unfold strlen. induction s as [|c s IH]; cbn [skip_space]; [lia|].
  destruct (isspace c); cbn [List.length] in *; lia.
Qed.

Lemma take_field_le (width : option nat) (s : cstr) :
  strlen (fst (take_field width s)) <= strlen s /\
  strlen (snd (take_field width s)) <= strlen s.
Proof.
  unfold strlen. revert width.
  induction s as [|c s IH]; intros width; cbn [take_field fst snd]; [lia|].
  destruct (isspace c); cbn [fst snd List.length]; [lia|].
  destruct width as [[|k]|]; cbn [fst snd List.length]; try lia.
  - specialize (IH (Some k)). destruct (take_field (Some k) s).
    cbn [fst snd List.length] in *. lia.
  - specialize (IH None). destruct (take_field None s).
    cbn [fst snd List.length] in *. lia.
Qed.

Lemma take_field_width (k : nat) (s : cstr) :
  strlen (fst (take_field (Some k) s)) <= Z.of_nat k.
Proof.
  unfold strlen. revert k.
  induction s as [|c s IH]; intros k; cbn [take_field fst List.length]; [lia|].
  destruct (isspace c); cbn [fst List.length]; [lia|].
  destruct k as [|k]; cbn [fst List.length]; [lia|].
  specialize (IH k). destruct (take_field (Some k) s).
  cbn [fst List.length] in *. lia.
Qed.

Lemma dest_fits_shorter (n n' : Z) (d : directive) :
  n' <= n -> dest_fits n d -> dest_fits n' d.
Proof.
  destruct d as [| | |width [size|]]; cbn; auto.
  intros Hle [H|H]; [left; lia | now right].
Qed.

(** No store overruns when every destination is large enough. *)
Lemma sscanf_from_fits (fmt : list directive) :
  forall (s : cstr) (converted : bool) (done : list cstr),
  Forall (dest_fits (strlen s)) fmt ->
  exists r, sscanf_from fmt s converted done = Ok r.
Proof.
  induction fmt as [|d fmt IH]; intros s converted done Hfits;
    cbn [sscanf_from]; [eauto|].
  inversion Hfits as [|? ? Hd Hrest]; subst.
  assert (Hmono : forall s', strlen s' <= strlen s ->
                  Forall (dest_fits (strlen s')) fmt).
  { intros s' Hle. eapply Forall_impl; [|exact Hrest].
    intros d'. now apply dest_fits_shorter. }
  destruct d as [|c| |width dest].
  - apply IH, Hmono, skip_space_le.
  - destruct s as [|x r]; [eauto|].
    destruct (Ascii.eqb x c); [|eauto].
    apply IH, Hmono. unfold strlen. cbn [List.length]. lia.
  - destruct s as [|x r]; [eauto|].
    apply IH, Hmono. unfold strlen. cbn [List.length]. lia.
  - pose proof (skip_space_le s) as Hskip.
    destruct (skip_space s) as [|x r] eqn:Hs1; [eauto|].
    pose proof (take_field_le width (x :: r)) as [Hf Hr].
    pose proof (fun k => take_field_width k (x :: r)) as Hw.
    destruct (take_field width (x :: r)) as [f rest] eqn:Htf. cbn [fst snd] in *.
    destruct dest as [size|].
    + assert (Hroom : (size <=? strlen f) = false).
      { apply Z.leb_gt. cbn in Hd. destruct Hd as [Hd|Hd]; [lia|].
        destruct width as [k|]; [|contradiction]. specialize (Hw k).
        rewrite Htf in Hw. cbn [fst] in Hw. lia. }
      rewrite Hroom. apply IH, Hmono. lia.
    + apply IH, Hmono. lia.
Qed.

Lemma parse_line_short (ctx : GitContext) (line : cstr) :
  strlen line < Z.pos PATH_MAX ->
  exists ctx', parse_line PATH_MAX realloc ctx line = Ok ctx'.
Proof.
  intros Hshort. unfold parse_line. cbv zeta.
  destruct (Ascii.eqb (char_at line 0) "1" || Ascii.eqb (char_at line 0) "2")%bool.
  - destruct (sscanf_from_fits (fmt_tracked PATH_MAX) line false [])
      as [[n outs] Hscan].
    { unfold fmt_tracked.
      repeat (apply Forall_cons;
              [cbn; first [exact I | left; lia | right; lia]|]).
      apply Forall_nil. }
    unfold sscanf. rewrite Hscan. cbn [bind].
    destruct outs as [|xy [|p [|? ?]]]; eauto.
  - destruct (Ascii.eqb (char_at line 0) "?"); [|eauto].
    destruct (sscanf_from_fits (fmt_untracked PATH_MAX) line false [])
      as [[n outs] Hscan].
    { unfold fmt_untracked.
      repeat (apply Forall_cons;
              [cbn; first [exact I | left; lia | right; lia]|]).
      apply Forall_nil. }
    unfold sscanf. rewrite Hscan. cbn [bind].
    destruct outs as [|p [|? ?]]; eauto.
Qed.

Lemma grow_spec (ctx : GitContext) :
  statuses (grow realloc ctx) = statuses ctx /\
  rel_prefix (grow realloc ctx) = rel_prefix ctx /\
  (capacity (grow realloc ctx) = capacity ctx \/
   (capacity ctx <= count ctx /\
    capacity (grow realloc ctx) = size_mul (capacity ctx) 2)).
Proof.
  unfold grow. cbv zeta.
  destruct (Z.leb_spec (capacity ctx) (count ctx)); [|auto].
  destruct (realloc (size_mul (capacity ctx) 2)); cbn; auto.
Qed.

Lemma store_if_room (c : GitContext) (e : GitStatus) :
  let c' := if count c <? capacity c then push c e else c in
  (exists more, statuses c' = statuses c ++ more /\ (List.length more <= 1)%nat) /\
  rel_prefix c' = rel_prefix c /\
  capacity c' = capacity c /\
  (count c <= capacity c -> count c' <= capacity c').
Proof.
  cbv zeta. destruct (Z.ltb_spec (count c) (capacity c)) as [Hlt|Hge].
  - unfold push, count in *. cbn [statuses capacity rel_prefix].
    rewrite length_app. cbn [List.length].
    split; [exists [e]; cbn; auto|]. repeat split; lia.
  - split; [exists []; rewrite app_nil_r; cbn; auto|]. repeat split; lia.
Qed.

(** One line: the entries before stay, at most one is added, the prefix
    stays, and the count stays within the capacity. *)
Lemma parse_line_keeps (ctx ctx' : GitContext) (line : cstr) :
  parse_line PATH_MAX realloc ctx line = Ok ctx' ->
  (exists more, statuses ctx' = statuses ctx ++ more /\ (List.length more <= 1)%nat) /\
  rel_prefix ctx' = rel_prefix ctx /\
  (count ctx <= capacity ctx -> capacity ctx < 2 ^ 63 ->
   count ctx' <= capacity ctx' /\
   capacity ctx <= capacity ctx' <= Z.max (capacity ctx) (2 * count ctx)).
Proof.
  intros H.
  assert (Hsame : (exists more, statuses ctx = statuses ctx ++ more /\
                                (List.length more <= 1)%nat) /\
                  rel_prefix ctx = rel_prefix ctx /\
                  (count ctx <= capacity ctx -> capacity ctx < 2 ^ 63 ->
                   count ctx <= capacity ctx /\
                   capacity ctx <= capacity ctx <= Z.max (capacity ctx) (2 * count ctx))).
  { split; [exists []; rewrite app_nil_r; cbn; auto|]. split; [reflexivity|]. lia. }
  assert (Huntracked : forall p,
            (exists more, statuses (add_untracked ctx p) = statuses ctx ++ more /\
                          (List.length more <= 1)%nat) /\
            rel_prefix (add_untracked ctx p) = rel_prefix ctx /\
            (count ctx <= capacity ctx -> capacity ctx < 2 ^ 63 ->
             count (add_untracked ctx p) <= capacity (add_untracked ctx p) /\
             capacity ctx <= capacity (add_untracked ctx p)
               <= Z.max (capacity ctx) (2 * count ctx))).
  { intros p. unfold add_untracked.
    destruct (store_if_room ctx {| path := p; status_staged := "?";
                                   status_unstaged := "?" |})
      as [Hm [Hp [Hcap Hc]]].
    split; [exact Hm|]. split; [exact Hp|]. intros Hinv _.
    split; [now apply Hc | rewrite Hcap; lia]. }
  assert (Htracked : forall xy p,
            (exists more, statuses (add_tracked realloc ctx xy p) = statuses ctx ++ more /\
                          (List.length more <= 1)%nat) /\
            rel_prefix (add_tracked realloc ctx xy p) = rel_prefix ctx /\
            (count ctx <= capacity ctx -> capacity ctx < 2 ^ 63 ->
             count (add_tracked realloc ctx xy p)
               <= capacity (add_tracked realloc ctx xy p) /\
             capacity ctx <= capacity (add_tracked realloc ctx xy p)
               <= Z.max (capacity ctx) (2 * count ctx))).
  { intros xy p. unfold add_tracked. cbv zeta.
    destruct (grow_spec ctx) as [Hgs [Hgp Hgc]].
    destruct (store_if_room (grow realloc ctx)
                {| path := p; status_staged := char_at xy 0;
                   status_unstaged := char_at xy 1 |})
      as [Hm [Hp [Hcap Hc]]].
    cbv zeta in Hm, Hp, Hcap, Hc.
    assert (Hcount : count (grow realloc ctx) = count ctx)
      by (unfold count; now rewrite Hgs).
    split; [now rewrite <- Hgs|]. split; [now rewrite <- Hgp|].
    intros Hinv Hbig.
    assert (Hnn : 0 <= count ctx) by (unfold count; lia).
    assert (Hgrown : count ctx <= capacity (grow realloc ctx) /\
                     capacity ctx <= capacity (grow realloc ctx)
                       <= Z.max (capacity ctx) (2 * count ctx)).
    { destruct Hgc as [->|[Hfull ->]]; [lia|].
      unfold size_mul, SIZE_MAX1. rewrite Z.mod_small; lia. }
    split; [apply Hc; rewrite Hcount; tauto | rewrite Hcap; tauto]. }
  unfold parse_line in H. cbv zeta in H.
  destruct (Ascii.eqb (char_at line 0) "1" || Ascii.eqb (char_at line 0) "2")%bool.
  - destruct (sscanf line (fmt_tracked PATH_MAX)) as [[n outs]|];
      cbn [bind] in H; [|discriminate].
    destruct outs as [|xy [|p [|? ?]]]; injection H as <-; try exact Hsame.
    destruct (n =? 2); [apply Htracked | exact Hsame].
  - destruct (Ascii.eqb (char_at line 0) "?").
    + destruct (sscanf line (fmt_untracked PATH_MAX)) as [[n outs]|];
        cbn [bind] in H; [|discriminate].
      destruct outs as [|p [|? ?]]; injection H as <-; try exact Hsame.
      destruct (n =? 1); [apply Huntracked | exact Hsame].
    + injection H as <-. exact Hsame.
Qed.

Lemma parse_lines_short (lines : list cstr) :
  Forall (fun line => strlen line < Z.pos PATH_MAX) lines ->
  forall ctx, exists ctx', parse_lines PATH_MAX realloc ctx lines = Ok ctx'.
Proof.
  induction 1 as [|line lines Hline _ IH]; intros ctx; cbn [parse_lines];
    [eauto|].
  destruct (parse_line_short ctx line Hline) as [ctx1 ->]. cbn [bind].
  apply IH.
Qed.

Lemma parse_lines_keep (lines : list cstr) :
  forall ctx ctx',
  parse_lines PATH_MAX realloc ctx lines = Ok ctx' ->
  (exists more, statuses ctx' = statuses ctx ++ more) /\
  rel_prefix ctx' = rel_prefix ctx /\
  (count ctx <= capacity ctx -> capacity ctx < 2 ^ 63 ->
   2 * (count ctx + Z.of_nat (List.length lines)) < 2 ^ 63 ->
   count ctx' <= capacity ctx' /\ capacity ctx <= capacity ctx').
Proof.
  induction lines as [|line lines IH]; intros ctx ctx' H; cbn [parse_lines] in H.
  - injection H as <-. split; [exists []; now rewrite app_nil_r|].
    split; [reflexivity|]. lia.
  - destruct (parse_line PATH_MAX realloc ctx line) as [ctx1|] eqn:Hline;
      cbn [bind] in H; [|discriminate].
    destruct (parse_line_keeps _ _ _ Hline) as [[m1 [Hm1 Hlen1]] [Hp1 Hinv1]].
    destruct (IH _ _ H) as [[m2 Hm2] [Hp2 Hinv2]].
    split; [exists (m1 ++ m2); now rewrite Hm2, Hm1, app_assoc|].
    split; [congruence|].
    intros Hinv Hcap Hlines. cbn [List.length] in Hlines.
    destruct (Hinv1 Hinv Hcap) as [Hc1 Hcap1].
    assert (Hcount1 : count ctx1 <= count ctx + 1).
    { unfold count. rewrite Hm1, length_app. lia. }
    destruct Hinv2 as [Hc2 Hcap2]; [exact Hc1 | lia | lia |].
    split; [exact Hc2 | lia].
Qed.

(** X1.  A status output whose lines are all shorter than [PATH_MAX]
    bytes is parsed without any store past the [xy] and [path] arrays,
    whatever the lines contain. *)
Theorem short_lines_parse_in_bounds (ctx : GitContext) (status_output : cstr) :
  Forall (fun line => strlen line < Z.pos PATH_MAX)
         (strtok_lines status_output) ->
  exists ctx', parse_status PATH_MAX realloc ctx status_output = Ok ctx'.
Proof. intros H. unfold parse_status. now apply parse_lines_short. Qed.


(** X3.  Parsing never removes or changes an entry that is already in the
    context, never changes the prefix, and keeps the count within the
    capacity of the array (which can only grow): no entry is stored past
    the end of [statuses]. *)
Theorem parse_status_keeps_context (ctx ctx' : GitContext) (status_output : cstr) :
  parse_status PATH_MAX realloc ctx status_output = Ok ctx' ->
  count ctx <= capacity ctx ->
  capacity ctx < 2 ^ 63 ->
  2 * (count ctx + Z.of_nat (List.length (strtok_lines status_output))) < 2 ^ 63 ->
  (exists more, statuses ctx' = statuses ctx ++ more) /\
  rel_prefix ctx' = rel_prefix ctx /\
  count ctx' <= capacity ctx' /\
  capacity ctx <= capacity ctx'.
Proof.
  intros H Hinv Hcap Hlines. unfold parse_status in H.
  destruct (parse_lines_keep _ _ _ H) as [Hm [Hp Hrest]].
  destruct (Hrest Hinv Hcap Hlines) as [Hc Hg].
  repeat split; assumption.
Qed.

(** X4.  When the array is full a well-formed untracked record is dropped,
    the branch has no growth step; a well-formed tracked record is stored
    after the capacity is doubled, and dropped only when [realloc]
    fails. *)
Theorem full_array_untracked_dropped (ctx : GitContext) (line : cstr)
        (e : GitStatus) :
  count ctx = capacity ctx ->
  0 < capacity ctx < 2 ^ 63 ->
  entry_of PATH_MAX line = Some e ->
  (char_at line 0 = "?"%char ->
   parse_line PATH_MAX realloc ctx line = Ok ctx) /\
  (char_at line 0 <> "?"%char ->
   parse_line PATH_MAX realloc ctx line =
     Ok (if realloc (2 * capacity ctx)
         then {| statuses := statuses ctx ++ [e];
                 capacity := 2 * capacity ctx;
                 rel_prefix := rel_prefix ctx |}
         else ctx)).
Proof.
  intros Hfull Hcap Hentry.
  assert (Hmul : size_mul (capacity ctx) 2 = 2 * capacity ctx).
  { unfold size_mul, SIZE_MAX1. rewrite Z.mod_small; lia. }
  unfold entry_of in Hentry. unfold parse_line. cbv zeta in *.
  destruct (Ascii.eqb (char_at line 0) "1" || Ascii.eqb (char_at line 0) "2")%bool
    eqn:Htype.
  - assert (Hnq : char_at line 0 <> "?"%char).
    { intros Hq. rewrite Hq in Htype. discriminate Htype. }
    split; [intros Hq; contradiction|]. intros _.
    destruct (sscanf line (fmt_tracked PATH_MAX)) as [[n outs]|];
      [|discriminate]. cbn [bind].
    destruct outs as [|xy [|p [|? ?]]]; try discriminate.
    destruct (n =? 2); [|discriminate]. injection Hentry as <-.
    unfold add_tracked, grow. cbv zeta.
    destruct (Z.leb_spec (capacity ctx) (count ctx)); [|lia].
    rewrite Hmul. destruct (realloc (2 * capacity ctx)).
    + unfold count at 1. cbn [statuses capacity]. fold (count ctx).
      destruct (Z.ltb_spec (count ctx) (2 * capacity ctx)); [|lia].
      reflexivity.
    + destruct (Z.ltb_spec (count ctx) (capacity ctx)); [lia|reflexivity].
  - destruct (Ascii.eqb_spec (char_at line 0) "?") as [Hq|Hq]; [|discriminate].
    split; [|intros Hne; contradiction]. intros _.
    destruct (sscanf line (fmt_untracked PATH_MAX)) as [[n outs]|];
      [|discriminate]. cbn [bind].
    destruct outs as [|p [|? ?]]; try discriminate.
    destruct (n =? 1); [|discriminate].
    unfold add_untracked.
    destruct (Z.ltb_spec (count ctx) (capacity ctx)); [lia|reflexivity].
Qed.

End ParserBounds.

Lemma short_lines_parse_in_bounds_witness :
  exists ctx',
    LgV2.parse_status 4096 (fun _ => true) (Spec.empty_context None)
      (cs "1 M. N... 100644 100644 100644 abc123 def456 a.c" ++ NL ::
       cs "# branch.head main" ++ NL :: cs "? b c.txt") = Ok ctx'.
Proof.
  apply short_lines_parse_in_bounds.
  vm_compute. repeat constructor.
Defined.


Lemma parse_status_keeps_context_witness :
  let ctx := {| LgV2.statuses :=
                  [{| LgV2.path := cs "old.c"; LgV2.status_staged := "M";
                      LgV2.status_unstaged := "." |}];
                LgV2.capacity := 1; LgV2.rel_prefix := Some (cs "src/") |} in
  let out := cs "1 A. N... 100644 100644 100644 abc123 def456 n.c" ++ NL ::
             cs "? u.txt" in
  exists ctx',
    LgV2.parse_status 4096 (fun _ => true) ctx out = Ok ctx' /\
    (exists more, LgV2.statuses ctx' = LgV2.statuses ctx ++ more) /\
    LgV2.rel_prefix ctx' = Some (cs "src/") /\
    LgV2.count ctx' <= LgV2.capacity ctx'.
Proof.
  intros ctx out.
  destruct (LgV2.parse_status 4096 (fun _ => true) ctx out) as [ctx'|] eqn:Hparse;
    [|vm_compute in Hparse; discriminate Hparse].
  exists ctx'. split; [reflexivity|].
  destruct (parse_status_keeps_context 4096 (fun _ => true) ctx ctx' out Hparse)
    as [Hm [Hp [Hc _]]]; try (vm_compute; reflexivity).
  - vm_compute. discriminate.
  - repeat split; assumption.
Defined.

Lemma full_array_untracked_dropped_witness :
  let ctx := {| LgV2.statuses :=
                  [{| LgV2.path := cs "a.c"; LgV2.status_staged := "M";
                      LgV2.status_unstaged := "." |}];
                LgV2.capacity := 1; LgV2.rel_prefix := None |} in
  LgV2.parse_line 4096 (fun _ => true) ctx (cs "? new.txt") = Ok ctx /\
  LgV2.parse_line 4096 (fun _ => true) ctx
    (cs "1 .M N... 100644 100644 100644 abc123 def456 b.c") =
    Ok {| LgV2.statuses :=
            LgV2.statuses ctx ++
            [{| LgV2.path := cs "b.c"; LgV2.status_staged := ".";
                LgV2.status_unstaged := "M" |}];
          LgV2.capacity := 2; LgV2.rel_prefix := None |}.
Proof.
  intros ctx. split.
  - apply (full_array_untracked_dropped 4096 (fun _ => true) ctx (cs "? new.txt")
             {| LgV2.path := cs "new.txt"; LgV2.status_staged := "?";
                LgV2.status_unstaged := "?" |});
      [reflexivity | vm_compute; split; reflexivity | reflexivity | reflexivity].
  - apply (full_array_untracked_dropped 4096 (fun _ => true) ctx
             (cs "1 .M N... 100644 100644 100644 abc123 def456 b.c")
             {| LgV2.path := cs "b.c"; LgV2.status_staged := ".";
                LgV2.status_unstaged := "M" |});
      [reflexivity | vm_compute; split; reflexivity | reflexivity | discriminate].
Defined.

(* ================================================================== *)
(** ** Further properties: the runner and the engine of lg_v2.c *)

Section EngineRun.
Import LgV2 Spec Props.
Variable PATH_MAX : positive.


(** X5.  In an array of [output_size] bytes the runner never stores past
    the end, whatever the child prints and however the reads are cut: the
    array keeps its size, and after a run it holds the child's output cut
    to [output_size - 1] bytes, terminated by a NUL inside the array. *)
Theorem runner_stays_in_array (c : child) (output : list ascii)
        (output_size : Z) :
  0 < output_size < SIZE_MAX1 ->
  strlen output = output_size ->
  exists rc output',
    exec_git_command c output output_size = Ok (rc, output') /\
    strlen output' = output_size /\
    (pipe_ok c = true -> fork_ok c = true ->
     c_str output' = c_str (take_z (output_size - 1) (child_output (reads c))) /\
     strlen (c_str output') < output_size).
Proof. apply exec_git_command_bounded. Qed.

(** X6.  With an [output_size] of 0 the count passed to [read],
    [output_size - total_read - 1], wraps to the largest [size_t]: [read]
    fails and the loop ends with nothing stored, whatever the child prints;
    the terminating NUL is then stored at [output[0]], past the end of the
    empty array. *)
Theorem zero_size_array_overrun (c : child) :
  pipe_ok c = true ->
  fork_ok c = true ->
  read_loop (reads c) [] 0 0 = Ok (0, []) /\
  store [] 0 [NUL] = Fault /\
  exec_git_command c [] 0 = Fault.
Proof.
  intros Hpipe Hfork.
  assert (Hloop : read_loop (reads c) [] 0 0 = Ok (0, [])).
  { destruct (reads c) as [|ev evs]; reflexivity. }
  split; [exact Hloop|]. split; [reflexivity|].
  unfold exec_git_command. rewrite Hpipe, Hfork, Hloop. reflexivity.
Qed.


End EngineRun.

Lemma runner_stays_in_array_witness :
  exists rc output',
    LgV2.exec_git_command
      {| pipe_ok := true; fork_ok := true;
         reads := [Rdata (cs "main"); Rdata (cs "-branch"); Rdata [NL]];
         wstatus := Exited 0 |}
      (array_of (fun _ => "x"%char) 8) 8 = Ok (rc, output') /\
    c_str output' = cs "main-br".
Proof.
  destruct (runner_stays_in_array
              {| pipe_ok := true; fork_ok := true;
                 reads := [Rdata (cs "main"); Rdata (cs "-branch"); Rdata [NL]];
                 wstatus := Exited 0 |}
              (array_of (fun _ => "x"%char) 8) 8)
    as [rc [output' [Hrun [_ Hstr]]]].
  - vm_compute. split; reflexivity.
  - reflexivity.
  - exists rc, output'. split; [exact Hrun|].
    destruct (Hstr eq_refl eq_refl) as [Heq _]. rewrite Heq. reflexivity.
Defined.

Lemma zero_size_array_overrun_witness :
  LgV2.read_loop [Rdata (cs "x")] [] 0 0 = Ok (0, []) /\
  LgV2.exec_git_command (prints (cs "x") 0) [] 0 = Fault.
Proof.
  destruct (zero_size_array_overrun (prints (cs "x") 0) eq_refl eq_refl)
    as [Hloop [_ Hrun]].
  split; [exact Hloop | exact Hrun].
Defined.


(* ================================================================== *)
(** ** Further properties: strings, the file list and the comparisons *)

Section Helpers.
Import LgV2 LgV2Main Props.

(** X8.  [safe_strncpy] never stores past a destination of [dest_size]
    bytes: the destination ends up holding the source cut to
    [dest_size - 1] bytes, and the return value is 0 exactly when nothing
    was cut.  With a size of 0 the destination is left as it was. *)
Theorem safe_strncpy_fits (dest src : cstr) (dest_size : Z) :
  0 < dest_size ->
  strlen (snd (safe_strncpy dest src dest_size)) < dest_size /\
  snd (safe_strncpy dest src dest_size) = take_z (dest_size - 1) src /\
  (fst (safe_strncpy dest src dest_size) = 0 <->
   snd (safe_strncpy dest src dest_size) = src) /\
  (fst (safe_strncpy dest src dest_size) = 0 <-> strlen src < dest_size) /\
  safe_strncpy dest src 0 = (-1, dest).
Proof.
  intros Hsize. unfold safe_strncpy.
  destruct (Z.eqb_spec dest_size 0) as [H0|_]; [lia|].
  change (0 =? 0) with true. cbv iota.
  pose proof (strlen_nonneg src) as Hsrc.
  destruct (Z.leb_spec dest_size (strlen src)) as [Hcut|Hfit]; cbn [fst snd].
  - rewrite strlen_take_z by lia.
    split; [lia|]. split; [reflexivity|].
    split; [|split; [split; [discriminate | lia] | reflexivity]].
    split; [discriminate|]. intros Heq.
    assert (Hlen : strlen (take_z (dest_size - 1) src) = strlen src) by now rewrite Heq.
    rewrite strlen_take_z in Hlen by lia. lia.
  - split; [lia|].
    split; [symmetry; apply take_z_all; unfold strlen in Hfit; lia|].
    split; [tauto|]. split; [tauto | reflexivity].
Qed.

Lemma safe_path_join_spec (dest dir file : cstr) (dest_size : Z) :
  0 < dest_size ->
  let r := safe_path_join dest dest_size dir file in
  strlen (snd r) < dest_size /\
  (fst r = 0 \/ fst r = -1) /\
  (fst r = 0 <->
   strlen dir + 1 + strlen file < dest_size /\
   strlen dir + 1 + strlen file <= INT_MAX) /\
  (fst r = 0 -> snd r = dir ++ cs "/" ++ file).
Proof.
  intros Hsize. cbv zeta. unfold safe_path_join, snprintf. cbn [fst snd].
  destruct (Z.eqb_spec dest_size 0) as [H0|_]; [lia|].
  assert (Hlen : strlen (dir ++ cs "/" ++ file) = strlen dir + 1 + strlen file).
  { rewrite !strlen_app. change (strlen (cs "/")) with 1. lia. }
  pose proof (strlen_nonneg (dir ++ cs "/" ++ file)) as Hnn.
  rewrite strlen_take_z by lia. split; [lia|]. rewrite <- Hlen.
  destruct (Z.ltb_spec INT_MAX (strlen (dir ++ cs "/" ++ file))) as [Hbig|Hsmall].
  - cbn [Z.ltb Z.compare orb]. change (-1 <? 0) with true. cbn [orb].
    split; [now right|]. split; [|discriminate].
    split; [discriminate | lia].
  - destruct (Z.ltb_spec (strlen (dir ++ cs "/" ++ file)) 0); [lia|]. cbn [orb].
    destruct (Z.leb_spec dest_size (strlen (dir ++ cs "/" ++ file))) as [Hcut|Hfit].
    + split; [now right|]. split; [|discriminate]. split; [discriminate | lia].
    + split; [now left|]. split; [split; [lia | reflexivity]|].
      intros _. apply take_z_all. unfold strlen in Hfit. lia.
Qed.

Lemma filelist_add_spec (realloc : Z -> bool) (strdup : bool)
      (l : FileList) (i : FileInfo) :
  LgV2Main.count l <= LgV2Main.capacity l ->
  0 < LgV2Main.capacity l < 2 ^ 63 ->
  exists rc l',
    filelist_add realloc strdup (Some l) (Some i) = Ok (rc, Some l') /\
    (rc = 0 \/ rc = -1) /\
    (rc = 0 -> files l' = files l ++ [i]) /\
    (rc = -1 -> files l' = files l) /\
    LgV2Main.count l' <= LgV2Main.capacity l' /\
    LgV2Main.capacity l <= LgV2Main.capacity l' /\
    (strdup = true ->
     LgV2Main.count l < LgV2Main.capacity l \/
       realloc (2 * LgV2Main.capacity l) = true ->
     rc = 0).
Proof.
  intros Hinv Hcap. unfold filelist_add. cbv zeta.
  assert (Hmul : size_mul (LgV2Main.capacity l) 2 = 2 * LgV2Main.capacity l).
  { unfold size_mul, SIZE_MAX1. rewrite Z.mod_small; lia. }
  rewrite Hmul.
  assert (Hpush : forall cap,
            LgV2Main.count {| files := files l ++ [i]; capacity := cap |}
            = LgV2Main.count l + 1).
  { intros cap. unfold LgV2Main.count. cbn [files]. rewrite length_app.
    cbn [List.length]. lia. }
  destruct (Z.leb_spec (LgV2Main.capacity l) (LgV2Main.count l)) as [Hfull|Hroom].
  - destruct (realloc (2 * LgV2Main.capacity l)) eqn:Hre.
    + unfold LgV2Main.count at 1. cbn [files LgV2Main.capacity].
      fold (LgV2Main.count l).
      destruct (Z.leb_spec (2 * LgV2Main.capacity l) (LgV2Main.count l)); [lia|].
      destruct strdup.
      * eexists 0, _. split; [reflexivity|]. rewrite Hpush.
        cbn [files LgV2Main.capacity].
        repeat split; auto; try lia; try discriminate.
      * eexists (-1), _. split; [reflexivity|].
        unfold LgV2Main.count at 1. cbn [files LgV2Main.capacity].
        fold (LgV2Main.count l).
        repeat split; auto; try lia; try discriminate.
    + exists (-1), l. split; [reflexivity|].
      repeat split; auto; try lia; try discriminate.
  - destruct (Z.leb_spec (LgV2Main.capacity l) (LgV2Main.count l)); [lia|].
    destruct strdup.
    + eexists 0, _. split; [reflexivity|]. rewrite Hpush.
      cbn [files LgV2Main.capacity].
      repeat split; auto; try lia; try discriminate.
    + exists (-1), l. split; [reflexivity|].
      repeat split; auto; try lia; try discriminate.
Qed.

(** X9.  [safe_path_join] never stores past [dest]; it returns 0 exactly
    when directory, separator and file name fit together with the
    terminator, and then [dest] holds exactly [dir/file]. *)
Theorem safe_path_join_fits (dest dir file : cstr) (dest_size : Z) :
  0 < dest_size ->
  let r := safe_path_join dest dest_size dir file in
  strlen (snd r) < dest_size /\
  (fst r = 0 \/ fst r = -1) /\
  (fst r = 0 <->
   strlen dir + 1 + strlen file < dest_size /\
   strlen dir + 1 + strlen file <= INT_MAX) /\
  (fst r = 0 -> snd r = dir ++ cs "/" ++ file).
Proof. apply safe_path_join_spec. Qed.

(** X10.  [filelist_add] on a list whose count is within its capacity
    stores inside the array: on success (return value 0) the list is the
    old one followed by the new element; on failure (-1) the elements are
    untouched; the count stays within the capacity, which never shrinks; and
    it succeeds whenever [strdup] does and either there is room or
    [realloc] succeeds. *)
Theorem filelist_add_in_bounds (realloc : Z -> bool) (strdup : bool)
        (l : FileList) (i : FileInfo) :
  LgV2Main.count l <= LgV2Main.capacity l ->
  0 < LgV2Main.capacity l < 2 ^ 63 ->
  exists rc l',
    filelist_add realloc strdup (Some l) (Some i) = Ok (rc, Some l') /\
    (rc = 0 \/ rc = -1) /\
    (rc = 0 -> files l' = files l ++ [i]) /\
    (rc = -1 -> files l' = files l) /\
    LgV2Main.count l' <= LgV2Main.capacity l' /\
    LgV2Main.capacity l <= LgV2Main.capacity l' /\
    (strdup = true ->
     LgV2Main.count l < LgV2Main.capacity l \/
       realloc (2 * LgV2Main.capacity l) = true ->
     rc = 0).
Proof. apply filelist_add_spec. Qed.

End Helpers.

Lemma safe_strncpy_fits_witness :
  LgV2.safe_strncpy [] (cs "README.md") 6 = (-1, cs "READM") /\
  LgV2.safe_strncpy [] (cs "lg.c") 6 = (0, cs "lg.c").
Proof.
  assert (H6 : 0 < 6) by lia.
  destruct (safe_strncpy_fits [] (cs "README.md") 6 H6) as [_ [Hcut _]].
  destruct (safe_strncpy_fits [] (cs "lg.c") 6 H6) as [_ [Hfit _]].
  split; [|reflexivity].
  rewrite (surjective_pairing (LgV2.safe_strncpy [] (cs "README.md") 6)), Hcut.
  reflexivity.
Defined.

Lemma safe_path_join_fits_witness :
  LgV2Main.safe_path_join [] 12 (cs "src") (cs "main.c") = (0, cs "src/main.c") /\
  fst (LgV2Main.safe_path_join [] 10 (cs "src") (cs "main.c")) = -1.
Proof.
  assert (H12 : 0 < 12) by lia.
  destruct (safe_path_join_fits [] (cs "src") (cs "main.c") 12 H12)
    as [_ [_ [Hiff Htext]]].
  split; [|reflexivity].
  rewrite (surjective_pairing (LgV2Main.safe_path_join [] 12 (cs "src") (cs "main.c"))).
  assert (Hrc : fst (LgV2Main.safe_path_join [] 12 (cs "src") (cs "main.c")) = 0).
  { apply Hiff. vm_compute. split; [reflexivity | discriminate]. }
  rewrite (Htext Hrc), Hrc. reflexivity.
Defined.

Lemma filelist_add_in_bounds_witness :
  let i := {| LgV2Main.name := cs "b.txt"; LgV2Main.mode := 33188;
              LgV2Main.size := 12; LgV2Main.mtime := 1700000000;
              LgV2Main.uid := 1000; LgV2Main.gid := 1000;
              LgV2Main.git_status := "M"%char; LgV2Main.is_dir := 0;
              LgV2Main.is_exec := 0; LgV2Main.is_symlink := 0 |} in
  let l := {| LgV2Main.files := [i]; LgV2Main.capacity := 1 |} in
  LgV2Main.filelist_add (fun _ => true) true (Some l) (Some i) =
    Ok (0, Some {| LgV2Main.files := [i; i]; LgV2Main.capacity := 2 |}).
Proof.
  intros i l.
  destruct (filelist_add_in_bounds (fun _ => true) true l i)
    as [rc [l' [Hrun [_ [Hok [_ [_ [_ Hsucc]]]]]]]].
  - vm_compute. discriminate.
  - vm_compute. split; reflexivity.
  - assert (Hrc : rc = 0) by (apply Hsucc; [reflexivity | now right]).
    subst rc. rewrite Hrun. vm_compute in Hrun. injection Hrun as <-.
    reflexivity.
Defined.

(* ------------------------------------------------------------------ *)
(** *** Comparisons *)

Section Comparisons.
Import LgV2Main Props.

Lemma tolower_code_zero (c : ascii) :
  nat_of_ascii (tolower c) = 0%nat -> c = NUL.
Proof.
  destruct c as [[] [] [] [] [] [] [] []]; vm_compute; intros H;
    solve [reflexivity | discriminate H].
Qed.

Lemma code_eq (a b : ascii) :
  Z.of_nat (nat_of_ascii a) - Z.of_nat (nat_of_ascii b) = 0 -> a = b.
Proof.
  intros H. assert (Hn : nat_of_ascii a = nat_of_ascii b) by lia.
  rewrite <- (ascii_nat_embedding a), <- (ascii_nat_embedding b). now rewrite Hn.
Qed.

Lemma strcasecmp_swap (a b : cstr) : strcasecmp a b = - strcasecmp b a.
Proof.
  revert b. induction a as [|x a IH]; intros [|y b]; cbn [strcasecmp]; try lia.
  cbv zeta.
  destruct (Z.eqb_spec (Z.of_nat (nat_of_ascii (tolower x))
                        - Z.of_nat (nat_of_ascii (tolower y))) 0) as [H0|Hne];
  destruct (Z.eqb_spec (Z.of_nat (nat_of_ascii (tolower y))
                        - Z.of_nat (nat_of_ascii (tolower x))) 0) as [H0'|Hne'];
    try lia.
  apply IH.
Qed.

Lemma code_positive (c : ascii) :
  Ascii.eqb c NUL = false -> 0 < Z.of_nat (nat_of_ascii (tolower c)).
Proof.
  intros Hc. destruct (nat_of_ascii (tolower c)) eqn:E; [|lia].
  apply tolower_code_zero in E. subst c. discriminate Hc.
Qed.

Lemma strcasecmp_zero (a b : cstr) :
  nul_free a = true -> nul_free b = true ->
  (strcasecmp a b = 0 <-> folded a = folded b).
Proof.
  revert b. induction a as [|x a IH]; intros [|y b] Ha Hb;
    cbn [strcasecmp folded map nul_free forallb] in *.
  - tauto.
  - apply andb_true_iff in Hb as [Hy _]. apply negb_true_iff in Hy.
    pose proof (code_positive y Hy). split; [lia | discriminate].
  - apply andb_true_iff in Ha as [Hx _]. apply negb_true_iff in Hx.
    pose proof (code_positive x Hx). split; [lia | discriminate].
  - apply andb_true_iff in Ha as [_ Ha]. apply andb_true_iff in Hb as [_ Hb].
    cbv zeta.
    destruct (Z.eqb_spec (Z.of_nat (nat_of_ascii (tolower x))
                          - Z.of_nat (nat_of_ascii (tolower y))) 0) as [H0|Hne].
    + apply code_eq in H0. rewrite H0, (IH b Ha Hb). unfold folded.
      split; [intros ->; reflexivity | intros H; now injection H].
    + split; [contradiction|]. intros H. injection H as Hxy _.
      rewrite Hxy in Hne. lia.
Qed.

Lemma strcasecmp_trans (a : cstr) :
  forall b c,
  nul_free a = true -> nul_free b = true -> nul_free c = true ->
  strcasecmp a b <= 0 -> strcasecmp b c <= 0 -> strcasecmp a c <= 0.
Proof.
  induction a as [|x a IH]; intros [|y b] [|z c] Ha Hb Hc;
    cbn [strcasecmp nul_free forallb] in *; try lia.
  - apply andb_true_iff in Ha as [Hx _]. apply negb_true_iff in Hx.
    pose proof (code_positive x Hx). lia.
  - apply andb_true_iff in Hb as [Hy _]. apply negb_true_iff in Hy.
    pose proof (code_positive y Hy). lia.
  - apply andb_true_iff in Ha as [_ Ha]. apply andb_true_iff in Hb as [_ Hb].
    apply andb_true_iff in Hc as [_ Hc]. cbv zeta.
    destruct (Z.eqb_spec (Z.of_nat (nat_of_ascii (tolower x))
                          - Z.of_nat (nat_of_ascii (tolower y))) 0);
    destruct (Z.eqb_spec (Z.of_nat (nat_of_ascii (tolower y))
                          - Z.of_nat (nat_of_ascii (tolower z))) 0);
    destruct (Z.eqb_spec (Z.of_nat (nat_of_ascii (tolower x))
                          - Z.of_nat (nat_of_ascii (tolower z))) 0);
      try lia.
    now apply IH.
Qed.

(** X11.  [compare_name] is a consistent ordering for [qsort]: swapping
    the arguments negates the result; it is transitive; and two names
    compare equal exactly when they are the same up to the case of ASCII
    letters. *)
Theorem compare_name_consistent (a b c : FileInfo) :
  nul_free (name a) = true ->
  nul_free (name b) = true ->
  nul_free (name c) = true ->
  compare_name a b = - compare_name b a /\
  (compare_name a b <= 0 -> compare_name b c <= 0 -> compare_name a c <= 0) /\
  (compare_name a b = 0 <-> folded (name a) = folded (name b)).
Proof.
  intros Ha Hb Hc. unfold compare_name.
  split; [apply strcasecmp_swap|].
  split; [now apply strcasecmp_trans | now apply strcasecmp_zero].
Qed.

Lemma to_int_small (z : Z) : - 2 ^ 31 <= z < 2 ^ 31 -> to_int z = z.
Proof. intros H. unfold to_int. rewrite Z.mod_small; lia. Qed.

(** X12.  [compare_time] orders two files by modification time as long as
    the times differ by less than [2^31] seconds: the result is then the
    difference itself.  The difference is cut to an [int]: times that are a
    multiple of [2^32] seconds apart compare equal, and a file newer by
    [2^31] seconds or more, up to [2^32], compares as older. *)
Theorem compare_time_wraps (a b : FileInfo) :
  (- 2 ^ 31 <= mtime a - mtime b < 2 ^ 31 ->
   compare_time a b = mtime a - mtime b) /\
  (forall k, mtime a = mtime b + k * 2 ^ 32 -> compare_time a b = 0) /\
  (2 ^ 31 <= mtime a - mtime b < 2 ^ 32 -> compare_time a b < 0).
Proof.
  unfold compare_time. split; [apply to_int_small|]. split.
  - intros k Hk. unfold to_int.
    replace (mtime a - mtime b + 2 ^ 31) with (2 ^ 31 + k * 2 ^ 32) by lia.
    rewrite Z.mod_add by lia. rewrite Z.mod_small; lia.
  - intros H. unfold to_int.
    replace (mtime a - mtime b + 2 ^ 31)
      with ((mtime a - mtime b - 2 ^ 31) + 1 * 2 ^ 32) by lia.
    rewrite Z.mod_add by lia. rewrite Z.mod_small; lia.
Qed.

End Comparisons.

Lemma compare_name_consistent_witness :
  LgV2Main.compare_name (file_named (cs "Makefile") 0) (file_named (cs "makefile") 0) = 0 /\
  LgV2Main.compare_name (file_named (cs "lg.c") 0) (file_named (cs "README") 0) =
    - LgV2Main.compare_name (file_named (cs "README") 0) (file_named (cs "lg.c") 0).
Proof.
  destruct (compare_name_consistent (file_named (cs "Makefile") 0)
              (file_named (cs "makefile") 0) (file_named (cs "lg.c") 0))
    as [_ [_ Hzero]]; try reflexivity.
  destruct (compare_name_consistent (file_named (cs "lg.c") 0)
              (file_named (cs "README") 0) (file_named (cs "lg.c") 0))
    as [Hswap _]; try reflexivity.
  split; [apply Hzero; reflexivity | exact Hswap].
Defined.

Lemma compare_time_wraps_witness :
  LgV2Main.compare_time (file_named [] 1700000000) (file_named [] 1600000000)
    = 100000000 /\
  LgV2Main.compare_time (file_named [] 4294967296) (file_named [] 0) = 0 /\
  LgV2Main.compare_time (file_named [] 3000000000) (file_named [] 0) < 0.
Proof.
  destruct (compare_time_wraps (file_named [] 1700000000) (file_named [] 1600000000))
    as [Hsmall _].
  destruct (compare_time_wraps (file_named [] 4294967296) (file_named [] 0))
    as [_ [Hmult _]].
  destruct (compare_time_wraps (file_named [] 3000000000) (file_named [] 0))
    as [_ [_ Hflip]].
  split; [rewrite Hsmall; [reflexivity | vm_compute; split; [discriminate | reflexivity]]|].
  split; [apply (Hmult 1); reflexivity|].
  apply Hflip. vm_compute. split; [discriminate | reflexivity].
Defined.

(* ------------------------------------------------------------------ *)
(** *** The option loop, the glyph buffer and the permission column *)

Section MainLoop.
Import LgV2Main Props.

Lemma option_l_iter (n : nat) :
  Nat.iter n option_l DETAIL_MINIMAL =
  match n with
  | O => DETAIL_MINIMAL
  | S O => DETAIL_STANDARD
  | _ => DETAIL_FULL
  end.
Proof.
  destruct n as [|[|n]]; try reflexivity.
  induction n as [|n IH]; [reflexivity|].
  rewrite Nat.iter_succ, IH. reflexivity.
Qed.

Lemma parse_options_known (opts : list ascii) :
  forall o,
  Forall (fun c => is_one_of "anljpbL" c = true) opts ->
  exists o',
    parse_options opts o = Proceed o' /\
    detail_level o' =
      Nat.iter (count_occ ascii_dec opts "l"%char) option_l (detail_level o) /\
    show_all o' = (show_all o || existsb (Ascii.eqb "a") opts)%bool /\
    sort_alphabetical o' =
      (sort_alphabetical o || existsb (Ascii.eqb "n") opts)%bool.
Proof.
  induction opts as [|c opts IH]; intros o Hknown.
  - exists o. cbn. rewrite !orb_false_r. auto.
  - inversion Hknown as [|? ? Hc Hrest]; subst.
    assert (Hcases : c = "a"%char \/ c = "n"%char \/ c = "l"%char \/
                     c = "j"%char \/ c = "p"%char \/ c = "b"%char \/
                     c = "L"%char).
    { unfold is_one_of in Hc. apply existsb_exists in Hc as [d [Hin Hd]].
      apply Ascii.eqb_eq in Hd. subst d. cbn in Hin.
      repeat (destruct Hin as [<-|Hin]; [auto 10|]). destruct Hin. }
    assert (Hiter : forall n d, Nat.iter n option_l (option_l d)
                                = option_l (Nat.iter n option_l d)).
    { intros n d. now rewrite <- Nat.iter_succ_r. }
    destruct Hcases as [-> | [-> | [-> | [-> | [-> | [-> | ->]]]]]];
      cbn [parse_options Ascii.eqb Bool.eqb];
      match goal with |- context [parse_options opts ?o1] =>
        destruct (IH o1 Hrest) as [o' [Hrun [Hd [Ha Hn]]]] end;
      exists o'; rewrite Hrun; cbn [detail_level show_all sort_alphabetical] in *;
      (split; [reflexivity|]); rewrite Hd, Ha, Hn;
      cbn [count_occ existsb Ascii.eqb Bool.eqb];
      repeat match goal with
             | |- context [ascii_dec ?x ?y] =>
                 destruct (ascii_dec x y); try discriminate; try congruence
             end;
      cbn [Nat.iter nat_rect orb]; rewrite ?Hiter, ?orb_true_r, ?orb_false_r;
      auto.
Qed.

(** X13.  In the option loop of [main] each [-l] raises the detail level
    by one step and it stays at the full level from the second one on;
    [-a] and [-n] switch their flags on whatever the order; the first
    [-h] ends the program with status 0 and the first unknown option with
    status 1, whatever follows. *)
Theorem parse_options_levels (opts rest : list ascii) (bad : ascii) :
  Forall (fun c => is_one_of "anljpbL" c = true) opts ->
  (exists o,
     parse_options opts initial_options = Proceed o /\
     detail_level o =
       match count_occ ascii_dec opts "l"%char with
       | O => DETAIL_MINIMAL
       | S O => DETAIL_STANDARD
       | _ => DETAIL_FULL
       end /\
     show_all o = existsb (Ascii.eqb "a") opts /\
     sort_alphabetical o = existsb (Ascii.eqb "n") opts) /\
  parse_options (opts ++ "h"%char :: rest) initial_options = Return 0 /\
  (is_one_of "anlhjpbL" bad = false ->
   parse_options (opts ++ bad :: rest) initial_options = Return 1).
Proof.
  intros Hknown.
  assert (Hprefix : forall tail o,
            exists o', parse_options (opts ++ tail) o = parse_options tail o').
  { clear rest bad. induction Hknown as [|c opts Hc _ IH]; intros tail o;
      [now exists o|].
    assert (Hcases : c = "a"%char \/ c = "n"%char \/ c = "l"%char \/
                     c = "j"%char \/ c = "p"%char \/ c = "b"%char \/
                     c = "L"%char).
    { unfold is_one_of in Hc. apply existsb_exists in Hc as [d [Hin Hd]].
      apply Ascii.eqb_eq in Hd. subst d. cbn in Hin.
      repeat (destruct Hin as [<-|Hin]; [auto 10|]). destruct Hin. }
    destruct Hcases as [-> | [-> | [-> | [-> | [-> | [-> | ->]]]]]];
      cbn [app parse_options Ascii.eqb Bool.eqb]; apply IH. }
  split; [|split].
  - destruct (parse_options_known opts initial_options Hknown)
      as [o [Hrun [Hd [Ha Hn]]]].
    exists o. split; [exact Hrun|]. cbn [detail_level show_all sort_alphabetical
                                      initial_options orb] in *.
    rewrite Hd, option_l_iter. auto.
  - destruct (Hprefix ("h"%char :: rest) initial_options) as [o' ->]. reflexivity.
  - intros Hbad. destruct (Hprefix (bad :: rest) initial_options) as [o' ->].
    unfold is_one_of in Hbad. cbn [cs list_ascii_of_string existsb] in Hbad.
    repeat (apply orb_false_iff in Hbad as [?H Hbad]).
    cbn [parse_options].
    repeat match goal with
           | H : Ascii.eqb bad _ = false |- _ => rewrite H; clear H
           end.
    reflexivity.
Qed.

End MainLoop.

Lemma parse_options_levels_witness :
  (exists o,
     LgV2Main.parse_options (cs "lalnl") LgV2Main.initial_options
       = LgV2Main.Proceed o /\
     LgV2Main.detail_level o = LgV2Main.DETAIL_FULL /\
     LgV2Main.show_all o = true) /\
  LgV2Main.parse_options (cs "lx") LgV2Main.initial_options = LgV2Main.Return 1.
Proof.
  assert (Hknown : Forall (fun c => is_one_of "anljpbL" c = true) (cs "lalnl")).
  { repeat constructor. }
  assert (Hone : Forall (fun c => is_one_of "anljpbL" c = true) (cs "l")).
  { repeat constructor. }
  destruct (parse_options_levels (cs "lalnl") [] "x" Hknown)
    as [[o [Hrun [Hlevel [Hall _]]]] _].
  destruct (parse_options_levels (cs "l") [] "x" Hone) as [_ [_ Hbad]].
  split; [|apply Hbad; reflexivity].
  exists o. split; [exact Hrun|]. split; [exact Hlevel | exact Hall].
Defined.

Section Columns.
Import LgV2Main Props.

(** X14.  The 5 bytes [main] gives [format_git_status] hold every glyph
    whole: whatever the status character, the buffer afterwards is the text
    of its case, at most 4 bytes.  One byte less would cut the circle
    glyphs of the staged and unstaged codes in the middle of their UTF-8
    sequence. *)
Theorem glyph_fits_buffer (status : ascii) (buf : cstr) :
  LgV2.format_git_status status buf 5 = LgV2.glyph_text status /\
  strlen (LgV2.format_git_status status buf 5) <= 4 /\
  (is_one_of "MADRCmadrc" status = true ->
   LgV2.format_git_status status buf 4 = [" "; "226"; "151"]%char).
Proof.
  destruct status as [[] [] [] [] [] [] [] []]; vm_compute;
    repeat split; try discriminate; intros H; solve [discriminate H | reflexivity].
Qed.


Lemma perm_str_bits (f : FileInfo) :
  perm_str f = char_at (perm_str f) 0 :: perm_bits (mode f).
Proof. reflexivity. Qed.

Lemma flag_low_bits (m bit : Z) (c : ascii) :
  Z.land 511 bit = bit -> flag (Z.land m 511) bit c = flag m bit c.
Proof.
  intros H. unfold flag. now rewrite <- Z.land_assoc, H.
Qed.

Lemma perm_bits_low (m : Z) : perm_bits (Z.land m 511) = perm_bits m.
Proof.
  unfold perm_bits. now rewrite !flag_low_bits by reflexivity.
Qed.

Lemma perm_bits_read_back (n : Z) (c : ascii) :
  0 <= n < 512 -> mode_of_perm (c :: perm_bits n) = n.
Proof.
  intros Hn.
  assert (Hall : forallb (fun k => mode_of_perm ("-"%char :: perm_bits (Z.of_nat k))
                                   =? Z.of_nat k) (seq 0 512) = true)
    by (vm_compute; reflexivity).
  rewrite forallb_forall in Hall.
  specialize (Hall (Z.to_nat n)).
  rewrite Z2Nat.id in Hall by lia.
  apply Z.eqb_eq. apply Hall. apply in_seq. lia.
Qed.

(** X15.  The permission column always has its ten characters, nothing is
    cut by the 11-byte array; its first character is [d] for a directory,
    else [l] for a symbolic link, else [-]; and the nine characters after it
    determine the nine permission bits of the mode: reading them back gives
    [mode & 0777]. *)
Theorem perm_str_round_trip (f : FileInfo) :
  strlen (perm_str f) = 10 /\
  char_at (perm_str f) 0 =
    (if is_dir f =? 0
     then (if is_symlink f =? 0 then "-"%char else "l"%char)
     else "d"%char) /\
  mode_of_perm (perm_str f) = Z.land (mode f) 511.
Proof.
  split; [reflexivity|]. split; [reflexivity|].
  rewrite perm_str_bits, <- perm_bits_low.
  apply perm_bits_read_back.
  change 511 with (Z.ones 9). rewrite Z.land_ones by lia.
  change (2 ^ 9) with 512. apply Z.mod_pos_bound. lia.
Qed.

End Columns.

Lemma glyph_fits_buffer_witness :
  LgV2.format_git_status "M" [] 5 = " "%char :: LgV2.solid_circle /\
  LgV2.format_git_status "M" [] 4 = [" "; "226"; "151"]%char.
Proof.
  destruct (glyph_fits_buffer "M" []) as [Hfit [_ Hcut]].
  split; [rewrite Hfit; reflexivity | apply Hcut; reflexivity].
Defined.

(* ------------------------------------------------------------------ *)
(** *** The directory loop *)

Section Directory.
Import LgV2Main Props.
Variable PATH_MAX : positive.
Variable w : dir_os.
Variable all : bool.
Variable git_ctx : option LgV2.GitContext.
Variable dir_path : cstr.

Hypothesis path_max_int : Z.pos PATH_MAX <= 2 ^ 31.
Hypothesis realloc_succeeds : forall n, realloc_ok w n = true.
Hypothesis strdup_succeeds : forall s, strdup_ok w s = true.

Lemma read_entry_listed (l : FileList) (d_name : cstr) :
  LgV2Main.count l <= LgV2Main.capacity l ->
  0 < LgV2Main.capacity l < 2 ^ 63 ->
  exists l' new,
    read_entry PATH_MAX w all git_ctx dir_path l d_name = Ok l' /\
    files l' = files l ++ new /\
    map name new = filter (listed PATH_MAX w all dir_path) [d_name] /\
    Forall (annotated PATH_MAX git_ctx) new /\
    LgV2Main.count l' <= LgV2Main.capacity l' /\
    LgV2Main.capacity l <= LgV2Main.capacity l'
      <= Z.max (LgV2Main.capacity l) (2 * LgV2Main.count l).
Proof.
  intros Hinv Hcap.
  assert (Hskip : listed PATH_MAX w all dir_path d_name = false ->
            exists l' new,
              Ok l = Ok l' /\ files l' = files l ++ new /\
              map name new = filter (listed PATH_MAX w all dir_path) [d_name] /\
              Forall (annotated PATH_MAX git_ctx) new /\
              LgV2Main.count l' <= LgV2Main.capacity l' /\
              LgV2Main.capacity l <= LgV2Main.capacity l'
                <= Z.max (LgV2Main.capacity l) (2 * LgV2Main.count l)).
  { intros Hno. exists l, []. cbn [filter]. rewrite Hno, app_nil_r.
    repeat split; auto; lia. }
  unfold read_entry. cbv zeta.
  destruct (negb all && Ascii.eqb (char_at d_name 0) ".")%bool eqn:Hhidden.
  { apply Hskip. unfold listed. now rewrite Hhidden. }
  assert (Hpos : 0 < Z.pos PATH_MAX) by lia.
  destruct (safe_path_join_spec [] dir_path d_name (Z.pos PATH_MAX) Hpos)
    as [_ [_ [Hiff Htext]]]. cbv zeta in Hiff, Htext.
  assert (Hlen : strlen (dir_path ++ cs "/" ++ d_name)
                 = strlen dir_path + 1 + strlen d_name).
  { rewrite !strlen_app. change (strlen (cs "/")) with 1. lia. }
  destruct (Z.eqb_spec (fst (safe_path_join [] (Z.pos PATH_MAX) dir_path d_name)) 0)
    as [Hrc|Hrc]; cbn [negb].
  2: { apply Hskip. unfold listed. rewrite Hhidden. cbn [negb andb].
       destruct (Z.ltb_spec (strlen (dir_path ++ cs "/" ++ d_name)) (Z.pos PATH_MAX))
         as [Hfit|_]; [|reflexivity].
       exfalso. apply Hrc, Hiff. unfold INT_MAX. lia. }
  rewrite (Htext Hrc).
  assert (Hfit : (strlen (dir_path ++ cs "/" ++ d_name) <? Z.pos PATH_MAX) = true).
  { apply Z.ltb_lt. apply Hiff in Hrc. lia. }
  destruct (lstat w (dir_path ++ cs "/" ++ d_name)) as [st|] eqn:Hstat.
  2: { apply Hskip. unfold listed. now rewrite Hhidden, Hfit, Hstat. }
  match goal with |- context [filelist_add _ _ _ (Some ?i)] => set (info := i) end.
  destruct (filelist_add_spec (realloc_ok w) (strdup_ok w d_name) l info Hinv Hcap)
    as [rc [l' [Hadd [_ [Hok [_ [Hinv' [Hgrow Hsucc]]]]]]]].
  rewrite Hadd. cbn [bind snd].
  assert (Hzero : rc = 0).
  { apply Hsucc; [apply strdup_succeeds | right; apply realloc_succeeds]. }
  exists l', [info]. split; [reflexivity|]. split; [now apply Hok|].
  split.
  { cbn [filter map]. unfold listed. rewrite Hhidden, Hfit, Hstat. reflexivity. }
  split.
  { constructor; [|constructor]. unfold annotated, info. cbn [git_status name].
    now destruct git_ctx. }
  split; [exact Hinv'|]. split; [exact Hgrow|].
  assert (Hadd' := Hadd). unfold filelist_add in Hadd'. cbv zeta in Hadd'.
  revert Hadd'.
  destruct (Z.leb_spec (LgV2Main.capacity l) (LgV2Main.count l)) as [Hfull|Hroom].
  - rewrite realloc_succeeds.
    assert (Hmul : size_mul (LgV2Main.capacity l) 2 = 2 * LgV2Main.capacity l).
    { unfold size_mul, SIZE_MAX1. rewrite Z.mod_small; lia. }
    rewrite Hmul. remember (2 * LgV2Main.capacity l) as doubled eqn:Hdoubled.
    destruct (_ <=? _); [discriminate|].
    destruct (strdup_ok w d_name); intros Hadd'; injection Hadd' as _ <-;
      cbn [LgV2Main.capacity]; lia.
  - destruct (_ <=? _); [discriminate|].
    destruct (strdup_ok w d_name); intros Hadd'; injection Hadd' as _ <-;
      cbn [LgV2Main.capacity]; lia.
Qed.

Lemma read_directory_listed (entries : list cstr) :
  forall l,
  LgV2Main.count l <= LgV2Main.capacity l ->
  0 < LgV2Main.capacity l < 2 ^ 63 ->
  2 * (LgV2Main.count l + Z.of_nat (List.length entries)) < 2 ^ 63 ->
  exists l' new,
    read_directory PATH_MAX w all git_ctx dir_path l entries = Ok l' /\
    files l' = files l ++ new /\
    map name new = filter (listed PATH_MAX w all dir_path) entries /\
    Forall (annotated PATH_MAX git_ctx) new /\
    LgV2Main.count l' <= LgV2Main.capacity l'.
Proof.
  induction entries as [|d_name entries IH]; intros l Hinv Hcap Hmany.
  - exists l, []. cbn. rewrite app_nil_r. repeat split; auto.
  - cbn [List.length] in Hmany. cbn [read_directory].
    destruct (read_entry_listed l d_name Hinv Hcap)
      as [l1 [new1 [Hrun1 [Hfiles1 [Hnames1 [Hann1 [Hinv1 Hcap1]]]]]]].
    rewrite Hrun1. cbn [bind].
    assert (Hlen1 : (List.length new1 <= 1)%nat).
    { rewrite <- (length_map name), Hnames1. cbn [filter].
      destruct (listed PATH_MAX w all dir_path d_name); cbn; lia. }
    assert (Hcount1 : LgV2Main.count l1 <= LgV2Main.count l + 1).
    { unfold LgV2Main.count. rewrite Hfiles1, length_app. lia. }
    destruct (IH l1) as [l' [new [Hrun [Hfiles [Hnames [Hann Hinv']]]]]];
      [exact Hinv1 | lia | lia |].
    exists l', (new1 ++ new). split; [exact Hrun|].
    split; [now rewrite Hfiles, Hfiles1, app_assoc|].
    split.
    { rewrite map_app, Hnames1, Hnames.
      change (d_name :: entries) with ([d_name] ++ entries).
      now rewrite filter_app. }
    split; [now apply Forall_app | exact Hinv'].
Qed.

End Directory.

(** X16.  When the allocations succeed, the directory loop of [main] puts
    into the list, in directory order, exactly the entries that are not
    hidden (or all, with [-a]), whose joined path fits [PATH_MAX] and for
    which [lstat] succeeds; every file listed carries the status the lookup
    gives for its name (a blank without a context); and the count stays
    within the capacity of the list. *)
Theorem read_directory_lists (PATH_MAX : positive) (w : LgV2Main.dir_os)
        (all : bool) (git_ctx : option LgV2.GitContext) (dir_path : cstr)
        (entries : list cstr) :
  Z.pos PATH_MAX <= 2 ^ 31 ->
  (forall n, LgV2Main.realloc_ok w n = true) ->
  (forall s, LgV2Main.strdup_ok w s = true) ->
  Z.of_nat (List.length entries) < 2 ^ 61 ->
  exists l,
    LgV2Main.read_directory PATH_MAX w all git_ctx dir_path
      {| LgV2Main.files := []; LgV2Main.capacity := LgV2.INITIAL_CAPACITY |}
      entries = Ok l /\
    map LgV2Main.name (LgV2Main.files l) =
      filter (Props.listed PATH_MAX w all dir_path) entries /\
    Forall (Props.annotated PATH_MAX git_ctx) (LgV2Main.files l) /\
    LgV2Main.count l <= LgV2Main.capacity l.
Proof.
  intros Hmax Hre Hdup Hmany.
  destruct (read_directory_listed PATH_MAX w all git_ctx dir_path Hmax Hre Hdup
              entries
              {| LgV2Main.files := []; LgV2Main.capacity := LgV2.INITIAL_CAPACITY |})
    as [l [new [Hrun [Hfiles [Hnames [Hann Hinv]]]]]].
  - vm_compute. discriminate.
  - vm_compute. split; reflexivity.
  - unfold LgV2Main.count. cbn [LgV2Main.files List.length]. lia.
  - exists l. cbn [LgV2Main.files app] in Hfiles. rewrite Hfiles.
    repeat split; assumption.
Qed.

Lemma read_directory_lists_witness :
  let ctx := {| LgV2.statuses :=
                  [{| LgV2.path := cs "src/main.c"; LgV2.status_staged := "M";
                      LgV2.status_unstaged := "." |}];
                LgV2.capacity := 100; LgV2.rel_prefix := Some (cs "src/") |} in
  exists l,
    LgV2Main.read_directory 4096 (plain_directory (cs "./gone")) false (Some ctx)
      (cs ".")
      {| LgV2Main.files := []; LgV2Main.capacity := 100 |}
      [cs "."; cs ".git"; cs "main.c"; cs "gone"; cs "util.c"] = Ok l /\
    map LgV2Main.name (LgV2Main.files l) = [cs "main.c"; cs "util.c"] /\
    map LgV2Main.git_status (LgV2Main.files l) = ["M"; " "]%char.
Proof.
  intros ctx.
  destruct (read_directory_lists 4096 (plain_directory (cs "./gone")) false
              (Some ctx) (cs ".")
              [cs "."; cs ".git"; cs "main.c"; cs "gone"; cs "util.c"])
    as [l [Hrun [Hnames _]]].
  - vm_compute. discriminate.
  - reflexivity.
  - reflexivity.
  - vm_compute. reflexivity.
  - exists l. split; [exact Hrun|]. split; [rewrite Hnames; reflexivity|].
    vm_compute in Hrun. injection Hrun as <-. reflexivity.
Defined.

(* ------------------------------------------------------------------ *)
(** *** The status table of lg.c *)

Section LgTable.
Import Lg Props.

Lemma plain_inv (c : ascii) :
  plain c = true ->
  isspace c = false /\ Ascii.eqb c NUL = false /\ Ascii.eqb c NL = false.
Proof.
  destruct c as [[] [] [] [] [] [] [] []]; vm_compute; intros H;
    try discriminate H; repeat split; reflexivity.
Qed.

Lemma plain_all (p : cstr) :
  forallb plain p = true ->
  Forall (fun c => isspace c = false) p /\
  nul_free p = true /\
  Forall (fun c => Ascii.eqb c NL = false) p.
Proof.
  induction p as [|c p IH]; cbn [forallb].
  - intros _. repeat split; constructor.
  - intros H. apply andb_prop in H as [Hc Hp].
    destruct (plain_inv c Hc) as [Hs [Hn Hl]].
    destruct (IH Hp) as [IH1 [IH2 IH3]].
    repeat split; try (constructor; assumption).
    unfold nul_free in *. cbn [forallb]. now rewrite Hn, IH2.
Qed.

(** [fgets]: a line that fits is delivered whole, with its newline. *)
Lemma fgets_from_line (size : Z) (body : list ascii) :
  Forall (fun c => Ascii.eqb c NL = false) body ->
  forall cur room s,
  Z.of_nat (List.length body) < room ->
  fgets_from size cur room (body ++ NL :: s) =
  rev (NL :: rev body ++ cur) :: fgets_from size [] (size - 1) s.
Proof.
  induction 1 as [|x body Hx _ IH]; intros cur room s Hroom.
  - cbn [app fgets_from rev]. now rewrite Ascii.eqb_refl.
  - cbn [List.length] in Hroom. cbn [app fgets_from]. rewrite Hx.
    destruct (Z.leb_spec room 1) as [Hle|_]; [lia|]. cbn [orb].
    rewrite IH by lia. cbn [rev]. now rewrite <- !app_assoc.
Qed.




(** [%s] stops at the first white space or at the end of the string. *)
Lemma take_field_until (p tail : cstr) :
  Forall (fun c => isspace c = false) p ->
  tail = [] \/ (exists x r, tail = x :: r /\ isspace x = true) ->
  take_field None (p ++ tail) = (p, tail).
Proof.
  intros Hp Htail. induction Hp as [|c p Hc _ IH].
  - destruct Htail as [->|[x [r [-> Hx]]]]; cbn [app take_field];
      [reflexivity | now rewrite Hx].
  - cbn [app take_field]. now rewrite Hc, IH.
Qed.

Lemma skip_space_head (c : ascii) (s : cstr) :
  isspace c = false -> skip_space (c :: s) = c :: s.
Proof. intros H. cbn [skip_space]. now rewrite H. Qed.

(** One [%s] conversion into an array of [size] bytes. *)
Lemma sscanf_from_str (width : option nat) (size : Z) (fmt : list directive)
      (s f rest : cstr) (converted : bool) (done : list cstr) :
  skip_space s <> [] ->
  take_field width (skip_space s) = (f, rest) ->
  sscanf_from (Dstr width (Some size) :: fmt) s converted done =
  if size <=? strlen f then Fault
  else sscanf_from fmt rest true (done ++ [f]).
Proof.
  intros Hne Htake. cbn [sscanf_from].
  destruct (skip_space s) eqn:Hs; [congruence|]. now rewrite Htake.
Qed.

Lemma sscanf_from_space (fmt : list directive) (s : cstr)
      (converted : bool) (done : list cstr) :
  sscanf_from (Dspace :: fmt) s converted done =
  sscanf_from fmt (skip_space s) converted done.
Proof. reflexivity. Qed.

(** What ["%2s\t%s"] makes of a status letter, a tab and a path. *)
Lemma scan_name_status (c : ascii) (p tail : cstr) :
  isspace c = false ->
  p <> [] ->
  Forall (fun c => isspace c = false) p ->
  tail = [] \/ (exists x r, tail = x :: r /\ isspace x = true) ->
  sscanf (c :: TAB :: p ++ tail) fmt_name_status =
  if MAX_PATH <=? strlen p then Fault else Ok (2, [[c]; p]).
Proof.
  intros Hc Hne Hp Htail.
  assert (Hskip : skip_space (p ++ tail) = p ++ tail).
  { destruct Hp as [|x p Hx _]; [congruence|]. now apply skip_space_head. }
  unfold sscanf, fmt_name_status.
  rewrite (sscanf_from_str _ _ _ _ [c] (TAB :: p ++ tail)).
  - change (3 <=? strlen [c]) with false. cbv iota.
    rewrite sscanf_from_space.
    change (skip_space (TAB :: p ++ tail)) with (skip_space (p ++ tail)).
    rewrite Hskip.
    rewrite (sscanf_from_str _ _ _ _ p tail).
    + destruct (MAX_PATH <=? strlen p); reflexivity.
    + rewrite Hskip. destruct p; [congruence|discriminate].
    + rewrite Hskip. now apply take_field_until.
  - rewrite (skip_space_head c _ Hc). discriminate.
  - rewrite (skip_space_head c _ Hc). cbn [take_field]. rewrite Hc.
    change (isspace TAB) with true. reflexivity.
Qed.

(** What ["%2s\t%s"] makes of a record that carries a score: the status
    field takes the letter and the first digit, the path field the rest of
    the score. *)
Lemma scan_scored_record (c d1 d2 d3 : ascii) (rest : cstr) :
  isspace c = false -> isspace d1 = false ->
  isspace d2 = false -> isspace d3 = false ->
  sscanf (c :: d1 :: d2 :: d3 :: TAB :: rest) fmt_name_status =
  Ok (2, [[c; d1]; [d2; d3]]).
Proof.
  intros Hc H1 H2 H3.
  unfold sscanf, fmt_name_status.
  rewrite (sscanf_from_str _ _ _ _ [c; d1] (d2 :: d3 :: TAB :: rest)).
  - change (3 <=? strlen [c; d1]) with false. cbv iota.
    rewrite sscanf_from_space, (skip_space_head d2 _ H2).
    rewrite (sscanf_from_str _ _ _ _ [d2; d3] (TAB :: rest)).
    + reflexivity.
    + rewrite (skip_space_head d2 _ H2). discriminate.
    + rewrite (skip_space_head d2 _ H2).
      apply (take_field_until [d2; d3] (TAB :: rest)).
      * repeat constructor; assumption.
      * right. exists TAB, rest. split; reflexivity.
  - rewrite (skip_space_head c _ Hc). discriminate.
  - rewrite (skip_space_head c _ Hc). cbn [take_field]. now rewrite Hc, H1, H2.
Qed.

Lemma chomp_le (line : cstr) : strlen (chomp line) <= strlen line.
Proof.
  unfold strlen. induction line as [|c r IH]; cbn [chomp]; [lia|].
  destruct (Ascii.eqb c NL); cbn [List.length]; lia.
Qed.

Lemma count_add (t : table) (p : cstr) (st : ascii) :
  git_status_count (add t p st) = git_status_count t + 1.
Proof. unfold git_status_count, add. rewrite length_app. cbn. lia. Qed.


Lemma table_kept_trans (t1 t2 t3 : table) :
  table_kept t1 t2 -> table_kept t2 t3 -> table_kept t1 t3.
Proof.
  intros [_ [n1 ->]] [H [n2 ->]]. split; [exact H|].
  exists (n1 ++ n2). now rewrite app_assoc.
Qed.

Lemma table_kept_add (t : table) (p : cstr) (st : ascii) :
  (git_status_count t <? MAX_FILES) = true -> table_kept t (add t p st).
Proof.
  intros H. apply Z.ltb_lt in H. split.
  - rewrite count_add. lia.
  - now exists [{| path := p; status := st |}].
Qed.

Lemma table_kept_refl (t : table) :
  git_status_count t <= MAX_FILES -> table_kept t t.
Proof. intros H. split; [exact H|]. exists []. now rewrite app_nil_r. Qed.

Lemma scan_short (line : cstr) :
  strlen line < MAX_PATH ->
  exists r, sscanf line fmt_name_status = Ok r.
Proof.
  intros Hshort. apply sscanf_from_fits. unfold fmt_name_status.
  repeat (apply Forall_cons; [cbn; first [exact I | left; lia | right; lia]|]).
  apply Forall_nil.
Qed.

Lemma staged_line_short (t : table) (line : cstr) :
  strlen line < MAX_PATH ->
  git_status_count t <= MAX_FILES ->
  exists t', staged_line t line = Ok t' /\ table_kept t t'.
Proof.
  intros Hshort Hcount. unfold staged_line.
  destruct (scan_short line Hshort) as [[n dests] ->]. cbn [bind].
  destruct dests as [|st [|p [|]]];
    try (exists t; split; [reflexivity | now apply table_kept_refl]).
  destruct (n =? 2); cbn [andb];
    [|exists t; split; [reflexivity | now apply table_kept_refl]].
  destruct (git_status_count t <? MAX_FILES) eqn:Hroom.
  - eexists. split; [reflexivity | now apply table_kept_add].
  - exists t; split; [reflexivity | now apply table_kept_refl].
Qed.

Lemma unstaged_line_short (t : table) (line : cstr) :
  strlen line < MAX_PATH ->
  git_status_count t <= MAX_FILES ->
  exists t', unstaged_line t line = Ok t' /\ table_kept t t'.
Proof.
  intros Hshort Hcount. unfold unstaged_line.
  destruct (scan_short line Hshort) as [[n dests] ->]. cbn [bind].
  destruct dests as [|st [|p [|]]];
    try (exists t; split; [reflexivity | now apply table_kept_refl]).
  destruct (n =? 2); cbn [andb];
    [|exists t; split; [reflexivity | now apply table_kept_refl]].
  destruct (negb (found t p)); cbn [andb];
    [|exists t; split; [reflexivity | now apply table_kept_refl]].
  destruct (git_status_count t <? MAX_FILES) eqn:Hroom.
  - eexists. split; [reflexivity | now apply table_kept_add].
  - exists t; split; [reflexivity | now apply table_kept_refl].
Qed.

Lemma untracked_line_short (t : table) (line : cstr) :
  strlen line < MAX_PATH ->
  git_status_count t <= MAX_FILES ->
  exists t', untracked_line t line = Ok t' /\ table_kept t t'.
Proof.
  intros Hshort Hcount. unfold untracked_line. cbv zeta.
  pose proof (chomp_le line) as Hle.
  destruct (0 <? strlen (chomp line));
    [|exists t; split; [reflexivity | now apply table_kept_refl]].
  destruct (negb (found t (chomp line))); cbn [andb];
    [|exists t; split; [reflexivity | now apply table_kept_refl]].
  destruct (git_status_count t <? MAX_FILES) eqn:Hroom;
    [|exists t; split; [reflexivity | now apply table_kept_refl]].
  destruct (Z.leb_spec MAX_PATH (strlen (chomp line))) as [Hbig|_]; [lia|].
  eexists. split; [reflexivity | now apply table_kept_add].
Qed.

Lemma each_line_short (step : table -> cstr -> outcome table) :
  (forall t line, strlen line < MAX_PATH -> git_status_count t <= MAX_FILES ->
                  exists t', step t line = Ok t' /\ table_kept t t') ->
  forall lines t,
  Forall (fun line => strlen line < MAX_PATH) lines ->
  git_status_count t <= MAX_FILES ->
  exists t', each_line step t lines = Ok t' /\ table_kept t t'.
Proof.
  intros Hstep lines. induction lines as [|line lines IH]; intros t Hall Hcount.
  - exists t. split; [reflexivity | now apply table_kept_refl].
  - inversion Hall as [|? ? Hline Hrest]; subst. cbn [each_line].
    destruct (Hstep t line Hline Hcount) as [t1 [-> Hk1]]. cbn [bind].
    destruct (IH t1 Hrest (proj1 Hk1)) as [t2 [Hrun Hk2]].
    exists t2. split; [exact Hrun | exact (table_kept_trans _ _ _ Hk1 Hk2)].
Qed.

Lemma run_short (step : table -> cstr -> outcome table) :
  (forall t line, strlen line < MAX_PATH -> git_status_count t <= MAX_FILES ->
                  exists t', step t line = Ok t' /\ table_kept t t') ->
  forall fp t,
  short_lines fp ->
  git_status_count t <= MAX_FILES ->
  exists t', run step t fp = Ok t' /\ table_kept t t'.
Proof.
  intros Hstep [stream|] t Hshort Hcount; cbn [run].
  - now apply each_line_short.
  - exists t. split; [reflexivity | now apply table_kept_refl].
Qed.


Lemma rev_line (body : list ascii) :
  rev (NL :: rev body ++ []) = body ++ [NL].
Proof. rewrite app_nil_r. cbn [rev]. now rewrite rev_involutive. Qed.


(** A plain record is a C string as it stands, and has no newline before
    its end. *)
Lemma record_body (c : ascii) (p : cstr) :
  plain c = true ->
  forallb plain p = true ->
  Forall (fun x => Ascii.eqb x NL = false) (c :: TAB :: p) /\
  nul_free (c :: TAB :: p) = true.
Proof.
  intros Hc Hp. destruct (plain_inv c Hc) as [_ [Hn Hl]].
  destruct (plain_all p Hp) as [_ [Hpn Hpl]]. split.
  - repeat (constructor; [assumption || reflexivity|]). exact Hpl.
  - unfold nul_free in *. cbn [forallb]. now rewrite Hn, Hpn.
Qed.

Lemma staged_line_record (t : table) (c : ascii) (p tail : cstr) :
  plain c = true ->
  forallb plain p = true ->
  p <> [] ->
  tail = [] \/ tail = [NL] ->
  staged_line t (c :: TAB :: p ++ tail) =
  if MAX_PATH <=? strlen p then Fault
  else Ok (if git_status_count t <? MAX_FILES then add t p c else t).
Proof.
  intros Hc Hp Hne Htail. unfold staged_line.
  rewrite scan_name_status.
  - destruct (MAX_PATH <=? strlen p); reflexivity.
  - apply (plain_inv c Hc).
  - exact Hne.
  - apply (plain_all p Hp).
  - destruct Htail as [->| ->]; [now left|].
    right. exists NL, []. split; reflexivity.
Qed.


Lemma fgets_records (rs : list (ascii * cstr)) :
  Forall plain_record rs ->
  fgets_lines (MAX_PATH + 10) (List.concat (map name_status_record rs)) =
  map name_status_record rs.
Proof.
  unfold fgets_lines. induction 1 as [|[c p] rs [Hc [Hne [Hp Hlen]]] _ IH];
    [reflexivity|].
  cbn [fst snd] in *. cbn [map List.concat]. unfold name_status_record at 1.
  cbn [fst snd].
  destruct (record_body c p Hc Hp) as [Hnl Hnul].
  replace ((c :: TAB :: p ++ [NL]) ++ List.concat (map name_status_record rs))
    with ((c :: TAB :: p) ++ NL :: List.concat (map name_status_record rs))
    by (cbn [app]; now rewrite <- app_assoc).
  rewrite (fgets_from_line _ _ Hnl).
  - cbn [map]. rewrite rev_line, IH.
    rewrite c_str_nul_free; [reflexivity|].
    rewrite nul_free_app, Hnul. reflexivity.
  - unfold strlen, MAX_PATH in *. cbn [List.length]. lia.
Qed.

Lemma each_line_records (rs : list (ascii * cstr)) :
  Forall plain_record rs ->
  forall t,
  git_status_count t + Z.of_nat (List.length rs) <= MAX_FILES ->
  each_line staged_line t (map name_status_record rs) =
  Ok (t ++ map entry_of_record rs).
Proof.
  induction 1 as [|[c p] rs [Hc [Hne [Hp Hlen]]] _ IH]; intros t Hroom.
  - cbn. now rewrite app_nil_r.
  - cbn [fst snd] in *. cbn [List.length] in Hroom.
    cbn [map each_line]. unfold name_status_record at 1. cbn [fst snd].
    rewrite (staged_line_record t c p [NL] Hc Hp Hne (or_intror eq_refl)).
    destruct (Z.leb_spec MAX_PATH (strlen p)) as [Hbig|_]; [lia|].
    destruct (Z.ltb_spec (git_status_count t) MAX_FILES) as [_|Hfull]; [|lia].
    cbn [bind]. rewrite IH by (rewrite count_add; lia).
    unfold add, entry_of_record at 2. cbn [fst snd].
    now rewrite <- app_assoc.
Qed.

Lemma lookup_added (t : table) (p name : cstr) (st : ascii) :
  name <> p ->
  get_file_git_status (add t p st) name = get_file_git_status t name.
Proof.
  intros Hne. unfold add. induction t as [|e t IH]; cbn [app get_file_git_status].
  - cbn [path]. destruct (streq p name) eqn:Heq; [|reflexivity].
    apply streq_eq in Heq. congruence.
  - now rewrite IH.
Qed.










End LgTable.

(* ------------------------------------------------------------------ *)
(** *** One entry per path *)

Section OneEntryPerPath.
Import Spec Props.
Variable PATH_MAX : positive.
Variable realloc : Z -> bool.



End OneEntryPerPath.


(** X17.  When every line read from the three commands is shorter than
    [MAX_PATH], [get_git_status] of lg.c stores nothing past the [path]
    arrays and nothing past the [MAX_FILES] entries of the table, whatever
    the lines contain: it returns, the count is at most [MAX_FILES], and
    the entries the table already held are all kept, in place. *)
Theorem lg_table_in_bounds (w : Lg.streams) (t : Lg.table) :
  Lg.git_status_count t <= Lg.MAX_FILES ->
  Props.short_lines (Lg.staged w) ->
  Props.short_lines (Lg.unstaged w) ->
  Props.short_lines (Lg.untracked w) ->
  exists t',
    Lg.get_git_status w t = Ok t' /\
    Lg.git_status_count t' <= Lg.MAX_FILES /\
    exists new, t' = t ++ new.
Proof.
  intros Hcount Hs Hu Hn. unfold Lg.get_git_status.
  assert (Hsame : exists t', Ok t = Ok t' /\ Props.table_kept t t').
  { exists t. split; [reflexivity | now apply table_kept_refl]. }
  destruct (Lg.git_dir w) as [out|]; [|exact Hsame].
  destruct (Lg.fgets_lines (Lg.MAX_PATH + 10) out); [exact Hsame|].
  destruct (run_short Lg.staged_line staged_line_short _ t Hs Hcount)
    as [t1 [-> Hk1]]. cbn [bind].
  destruct (run_short Lg.unstaged_line unstaged_line_short _ t1 Hu (proj1 Hk1))
    as [t2 [-> Hk2]]. cbn [bind].
  destruct (run_short Lg.untracked_line untracked_line_short _ t2 Hn (proj1 Hk2))
    as [t3 [-> Hk3]].
  exists t3. split; [reflexivity|].
  exact (table_kept_trans _ _ _ (table_kept_trans _ _ _ Hk1 Hk2) Hk3).
Qed.

Lemma lg_table_in_bounds_witness :
  let w := {| Lg.git_dir := Some (cs ".git" ++ [NL]);
              Lg.staged := Some (cs "M" ++ TAB :: cs "a.c" ++ [NL]);
              Lg.unstaged := Some (cs "M" ++ TAB :: cs "a.c" ++ NL ::
                                   cs "D" ++ TAB :: cs "b.c" ++ [NL]);
              Lg.untracked := Some (cs "new file.txt" ++ [NL]) |} in
  exists t',
    Lg.get_git_status w [] = Ok t' /\
    Lg.git_status_count t' <= Lg.MAX_FILES /\
    exists new, t' = [] ++ new.
Proof.
  intros w. apply (lg_table_in_bounds w []).
  - vm_compute. discriminate.
  - cbn [Props.short_lines Lg.staged w].
    repeat (apply Forall_cons; [vm_compute; reflexivity|]). apply Forall_nil.
  - cbn [Props.short_lines Lg.unstaged w].
    repeat (apply Forall_cons; [vm_compute; reflexivity|]). apply Forall_nil.
  - cbn [Props.short_lines Lg.untracked w].
    repeat (apply Forall_cons; [vm_compute; reflexivity|]). apply Forall_nil.
Defined.



(** X19.  The staged loop of lg.c reads back what git prints: a stream of
    records [letter TAB path NL], with paths of non-blank characters
    shorter than [MAX_PATH], adds one entry per record, in order, with the
    path and the letter of the record, as long as the table has room. *)
Theorem lg_staged_records_stored (t : Lg.table) (rs : list (ascii * cstr)) :
  Forall Props.plain_record rs ->
  Lg.git_status_count t + Z.of_nat (List.length rs) <= Lg.MAX_FILES ->
  Lg.run Lg.staged_line t
    (Some (List.concat (map Props.name_status_record rs))) =
  Ok (t ++ map Props.entry_of_record rs).
Proof.
  intros Hrs Hroom. cbn [Lg.run].
  rewrite (fgets_records rs Hrs). now apply each_line_records.
Qed.

Lemma lg_staged_records_stored_witness :
  Lg.run Lg.staged_line []
    (Some (cs "M" ++ TAB :: cs "src/main.c" ++ NL ::
           cs "A" ++ TAB :: cs "README.md" ++ [NL])) =
  Ok [{| Lg.path := cs "src/main.c"; Lg.status := "M" |};
      {| Lg.path := cs "README.md"; Lg.status := "A" |}].
Proof.
  apply (lg_staged_records_stored []
           [("M"%char, cs "src/main.c"); ("A"%char, cs "README.md")]).
  - repeat (apply Forall_cons;
            [split; [reflexivity
                    |split; [discriminate
                            |split; [reflexivity | vm_compute; reflexivity]]]|]).
    apply Forall_nil.
  - vm_compute. discriminate.
Defined.

(** X20.  A record that carries a score, as git prints for a rename or a
    copy ([R100 TAB old TAB new]), is not stored under either of its
    paths in lg.c: [%2s] takes the letter and the first digit, and the
    entry added has the last two digits of the score as its path.  The
    lookup of every other name, the new path included, is what it was
    before the record. *)
Theorem lg_scored_record_stores_score (t : Lg.table) (c d1 d2 d3 : ascii)
        (rest : cstr) :
  Props.plain c = true -> Props.plain d1 = true ->
  Props.plain d2 = true -> Props.plain d3 = true ->
  Lg.git_status_count t < Lg.MAX_FILES ->
  Lg.staged_line t (c :: d1 :: d2 :: d3 :: TAB :: rest) =
    Ok (Lg.add t [d2; d3] c) /\
  Lg.unstaged_line t (c :: d1 :: d2 :: d3 :: TAB :: rest) =
    Ok (if Lg.found t [d2; d3] then t else Lg.add t [d2; d3] (Lg.plus32 c)) /\
  forall name st, name <> [d2; d3] ->
    Lg.get_file_git_status (Lg.add t [d2; d3] st) name =
    Lg.get_file_git_status t name.
Proof.
  intros Hc H1 H2 H3 Hroom.
  apply plain_inv in Hc as [Hc _]. apply plain_inv in H1 as [H1 _].
  apply plain_inv in H2 as [H2 _]. apply plain_inv in H3 as [H3 _].
  apply Z.ltb_lt in Hroom.
  unfold Lg.staged_line, Lg.unstaged_line.
  rewrite (scan_scored_record c d1 d2 d3 rest Hc H1 H2 H3). cbn [bind].
  rewrite Hroom. change (2 =? 2) with true. cbn [andb char_at nth].
  split; [reflexivity|]. split.
  - destruct (Lg.found t [d2; d3]); reflexivity.
  - intros name st Hne. now apply lookup_added.
Qed.

Lemma lg_scored_record_stores_score_witness :
  Lg.staged_line [] (cs "R100" ++ TAB :: cs "old.c" ++ TAB :: cs "new.c" ++ [NL])
    = Ok [{| Lg.path := cs "00"; Lg.status := "R" |}] /\
  Lg.get_file_git_status [{| Lg.path := cs "00"; Lg.status := "R" |}]
    (cs "new.c") = " "%char.
Proof.
  destruct (lg_scored_record_stores_score [] "R" "1" "0" "0"
              (cs "old.c" ++ TAB :: cs "new.c" ++ [NL]))
    as [Hstaged [_ Hlookup]];
    try reflexivity.
  split; [exact Hstaged|].
  apply (Hlookup (cs "new.c") "R"%char). discriminate.
Defined.
